(** * ConnectionPool (src/mongo/client/connection_pool.cpp)

    A shallow embedding of the pool of outbound connections and of its
    scoped handle [ConnectionPtr], followed by the properties of the
    pool that the design document states and by further properties of
    the code.

    Modelling conventions.
    - [Date_t] is a 64-bit signed count of milliseconds, [Date_t::max()]
      the largest one.  The class and its [operator+] live outside this
      file of the repository; the sum of a [Date_t] and a duration is the
      sum of the machine, which wraps around.
    - A [DBClientConnection*] is an address into a heap of connection
      objects.  [new] returns an address that holds no object: one that
      was never handed out, or one that was handed out and deleted,
      whichever the allocator picks; [delete] removes the object from the
      heap; deleting an address that holds no object, or calling a member
      through it, is a fault.
    - A [ConnectionList::iterator] designates a list node; nodes of
      [_inUseConnections] are designated by the address of the
      connection they hold.
    - The pool carries the heap and [nextAddr], the first block that
      [new] has not handed out yet.
    - Every public member function runs as one critical section: the
      windows in which [acquireConnection] drops the mutex are not
      interleaved with other threads here.
    - What the network does (liveness probe, dial, authentication) is an
      input of [acquireConnection], the record [Env]. *)

From stdpp Require Import gmap strings list fin_maps.
From Stdlib Require Import ZArith Lia.

(** ** Data model *)

Abbreviation Date_t := Z (only parsing).
Abbreviation Milliseconds := Z (only parsing).
Abbreviation HostAndPort := (string * N)%type (only parsing).
Abbreviation addr := nat (only parsing).

(** The parts of a [DBClientConnection] the pool reads or writes. *)
Record DBClientConnection := mkConn {
  getServerHostAndPort : HostAndPort;
  soTimeoutMillis : Milliseconds;
  portTag : Z;
  portShutdown : bool
}.

Record ConnectionInfo := mkInfo {
  conn : addr;
  creationDate : Date_t
}.

Abbreviation ConnectionList := (list ConnectionInfo) (only parsing).

Record State := mkState {
  heap : gmap addr DBClientConnection;
  nextAddr : addr;
  _messagingPortTags : Z;
  _connections : gmap HostAndPort ConnectionList;
  _inUseConnections : ConnectionList;
  _lastUsedHosts : gmap HostAndPort Date_t;
  _lastCleanUpTime : Date_t
}.

Definition set_heap (f : gmap addr DBClientConnection -> gmap addr DBClientConnection)
    (s : State) : State :=
  mkState (f (heap s)) (nextAddr s) (_messagingPortTags s) (_connections s)
          (_inUseConnections s) (_lastUsedHosts s) (_lastCleanUpTime s).

Definition set_nextAddr (n : addr) (s : State) : State :=
  mkState (heap s) n (_messagingPortTags s) (_connections s)
          (_inUseConnections s) (_lastUsedHosts s) (_lastCleanUpTime s).

Definition set_connections
    (f : gmap HostAndPort ConnectionList -> gmap HostAndPort ConnectionList)
    (s : State) : State :=
  mkState (heap s) (nextAddr s) (_messagingPortTags s) (f (_connections s))
          (_inUseConnections s) (_lastUsedHosts s) (_lastCleanUpTime s).

Definition set_inUseConnections (f : ConnectionList -> ConnectionList)
    (s : State) : State :=
  mkState (heap s) (nextAddr s) (_messagingPortTags s) (_connections s)
          (f (_inUseConnections s)) (_lastUsedHosts s) (_lastCleanUpTime s).

Definition set_lastUsedHosts
    (f : gmap HostAndPort Date_t -> gmap HostAndPort Date_t)
    (s : State) : State :=
  mkState (heap s) (nextAddr s) (_messagingPortTags s) (_connections s)
          (_inUseConnections s) (f (_lastUsedHosts s)) (_lastCleanUpTime s).

Definition set_lastCleanUpTime (t : Date_t) (s : State) : State :=
  mkState (heap s) (nextAddr s) (_messagingPortTags s) (_connections s)
          (_inUseConnections s) (_lastUsedHosts s) t.

(** ** Outcomes of a member function *)

(** Undefined behaviour and aborts. *)
Inductive Fault :=
  | DeleteOfFreed        (* delete of an address that holds no object *)
  | UseOfFreed           (* member call through such an address *)
  | EndIteratorDeref     (* find(...)->second on end() *)
  | InvariantFailure     (* invariant(...) aborts *)
  | InvalidIterator      (* iterator that is not into _inUseConnections *)
  | NullPool.            (* call through a null _pool *)

(** C++ exceptions that leave [acquireConnection]. *)
Inductive Exception :=
  | ConnectFailed (target : HostAndPort) (errmsg : string)   (* uassert 28640 *)
  | AuthenticationFailed                                     (* missing credentials *)
  | AuthRejected                                             (* thrown by auth() *)
  | ProbeThrew.                                              (* thrown inside the try block *)

Inductive Outcome (A : Type) :=
  | Ret (a : A) (s : State)
  | Throw (e : Exception) (s : State)
  | Crash (f : Fault)
  | OutOfFuel.
Arguments Ret {A} a s.
Arguments Throw {A} e s.
Arguments Crash {A} f.
Arguments OutOfFuel {A}.

Definition M (A : Type) : Type := State -> Outcome A.

Definition ret {A} (a : A) : M A := fun s => Ret a s.

Definition bind {A B} (m : M A) (k : A -> M B) : M B := fun s =>
  match m s with
  | Ret a s' => k a s'
  | Throw e s' => Throw e s'
  | Crash f => Crash f
  | OutOfFuel => OutOfFuel
  end.

Definition throw {A} (e : Exception) : M A := fun s => Throw e s.
Definition crash {A} (f : Fault) : M A := fun _ => Crash f.
Definition get : M State := fun s => Ret s s.
Definition modify (f : State -> State) : M unit := fun s => Ret tt (f s).

Notation "'let!' x := m 'in' k" := (bind m (fun x => k))
  (at level 10, x name, m at level 100, k at level 200).

Fixpoint forM_ {A} (f : A -> M unit) (l : list A) : M unit :=
  match l with
  | [] => ret tt
  | x :: l' => let! _ := f x in forM_ f l'
  end.

(** ** Constants *)

(** [Date_t::max()]: the largest 64-bit signed millisecond count. *)
Definition kNeverTooStale : Date_t := 9223372036854775807%Z.

Definition kCleanUpInterval : Milliseconds := (5 * 60 * 1000)%Z.
Definition kMaxConnectionAge : Milliseconds := (30 * 1000)%Z.

(** The 64-bit signed integer that the bits of [z] are. *)
Definition wrap64 (z : Z) : Z := ((z + 2 ^ 63) mod 2 ^ 64 - 2 ^ 63)%Z.

(** [Date_t + Milliseconds]. *)
Definition Date_t_plus (d : Date_t) (ms : Milliseconds) : Date_t := wrap64 (d + ms).

(** ** Private helpers *)

Definition _shouldKeepConnection (now : Date_t) (connInfo : ConnectionInfo) : bool :=
  let expirationDate := Date_t_plus (creationDate connInfo) kMaxConnectionAge in
  if (expirationDate <=? now)%Z then false else true.

(** [delete p]. *)
Definition delete_conn (p : addr) : M unit := fun s =>
  match heap s !! p with
  | Some _ => Ret tt (set_heap (delete p) s)
  | None => Crash DeleteOfFreed
  end.

(** [_cleanUpOlderThan_inlock(now, hostConns)].  The list behind the
    pointer is an argument and the swept list is the result: the caller
    decides where the result is stored, which is where the pointer
    pointed. *)
Fixpoint _cleanUpOlderThan_inlock_list (now : Date_t) (hostConns : ConnectionList)
    : M ConnectionList :=
  match hostConns with
  | [] => ret []
  | c :: rest =>
      if _shouldKeepConnection now c then
        let! rest' := _cleanUpOlderThan_inlock_list now rest in
        ret (c :: rest')
      else
        let! _ := delete_conn (conn c) in
        _cleanUpOlderThan_inlock_list now rest
  end.

(** The node of [connList] an iterator designates, and [connList->erase]. *)
Definition find_iter (iter : addr) (connList : ConnectionList) : option ConnectionInfo :=
  List.find (fun c => Nat.eqb (conn c) iter) connList.

Fixpoint erase (iter : addr) (connList : ConnectionList) : ConnectionList :=
  match connList with
  | [] => []
  | c :: rest => if Nat.eqb (conn c) iter then rest else c :: erase iter rest
  end.

(** [_destroyConnection_inlock(connList, iter)], list in, list out. *)
Definition _destroyConnection_inlock (connList : ConnectionList) (iter : addr)
    : M ConnectionList :=
  match find_iter iter connList with
  | None => crash InvalidIterator
  | Some info =>
      let! _ := delete_conn (conn info) in
      ret (erase iter connList)
  end.

(** [_destroyConnection_inlock(&_inUseConnections, iter)]. *)
Definition _destroyConnection_inlock_inUse (iter : addr) : M unit :=
  let! s := get in
  let! l := _destroyConnection_inlock (_inUseConnections s) iter in
  modify (set_inUseConnections (fun _ => l)).

(** One turn of the loop of [_cleanUpOlderThan_inlock(now)] on the map
    entry [(host, hostConns)]. *)
Definition cleanUpHost (now : Date_t) (entry : HostAndPort * ConnectionList) : M unit :=
  let! hostConns' := _cleanUpOlderThan_inlock_list now entry.2 in
  match hostConns' with
  | [] => modify (set_connections (delete entry.1))
  | _ => modify (set_connections <[entry.1 := hostConns']>)
  end.

(** [_cleanUpOlderThan_inlock(now)].  The loop visits every entry of
    [_connections] once and changes only the entry it visits. *)
Definition _cleanUpOlderThan_inlock (now : Date_t) : M unit :=
  let! s := get in
  forM_ (cleanUpHost now) (map_to_list (_connections s)).

Definition cleanUpOlderThan (now : Date_t) : M unit :=
  _cleanUpOlderThan_inlock now.

(** [port().shutdown()] on a connection object, and through a pointer. *)
Definition shut_down (c : DBClientConnection) : DBClientConnection :=
  mkConn (getServerHostAndPort c) (soTimeoutMillis c) (portTag c) true.

Definition shutdown_port (p : addr) : M unit := fun s =>
  match heap s !! p with
  | Some c => Ret tt (set_heap <[p := shut_down c]> s)
  | None => Crash UseOfFreed
  end.

Definition closeAllInUseConnections : M unit :=
  let! s := get in
  forM_ (fun info => shutdown_port (conn info)) (_inUseConnections s).

(** One turn of the loop of [_cleanUpStaleHosts_inlock] on the entry
    [(host, lastUsed)] of [_lastUsedHosts].  [connList] is a copy of the
    list stored in [_connections]: the swept copy is checked and dropped,
    the stored list is not written. *)
Definition cleanUpStaleHost (now : Date_t) (entry : HostAndPort * Date_t) : M unit :=
  let! s := get in
  if (entry.2 <=? _lastCleanUpTime s)%Z then
    match _connections s !! entry.1 with
    | None => crash EndIteratorDeref
    | Some connList =>
        let! connList' := _cleanUpOlderThan_inlock_list now connList in
        match connList' with
        | [] => modify (set_lastUsedHosts <[entry.1 := kNeverTooStale]>)
        | _ => crash InvariantFailure
        end
    end
  else ret tt.

Definition _cleanUpStaleHosts_inlock (now : Date_t) : M unit :=
  let! s := get in
  if (now >? Date_t_plus (_lastCleanUpTime s) kCleanUpInterval)%Z then
    let! _ := forM_ (cleanUpStaleHost now) (map_to_list (_lastUsedHosts s)) in
    modify (set_lastCleanUpTime now)
  else ret tt.

(** ** The network, as seen by [acquireConnection] *)

Inductive ProbeResult := StillConnected | NotConnected | ProbeThrows.

Record Env := mkEnv {
  isStillConnected : addr -> ProbeResult;       (* may also throw *)
  connect : HostAndPort -> bool * string;       (* result and errmsg *)
  newPortTag : Z;                               (* port().tag of a new connection *)
  isAuthEnabled : bool;
  isInternalAuthSet : bool;
  authSucceeds : bool;                          (* auth() returns, or throws *)
  newAddress : option addr                      (* the block the allocator picks *)
}.

(** [setSoTimeout] through a connection pointer.  The argument of the
    C++ call is [timeout.count() / 1000.0] seconds; the object keeps the
    millisecond count. *)
Definition setSoTimeout (p : addr) (timeout : Milliseconds) : M unit := fun s =>
  match heap s !! p with
  | Some c =>
      Ret tt (set_heap <[p := mkConn (getServerHostAndPort c) timeout
                                     (portTag c) (portShutdown c)]> s)
  | None => Crash UseOfFreed
  end.

(** The body of the [try] block on [candidate]: [true] when the function
    returns the candidate, [false] when control leaves the block
    normally. *)
Definition probe (env : Env) (candidate : addr) (timeout : Milliseconds) : M bool :=
  fun s =>
  match heap s !! candidate with
  | None => Crash UseOfFreed
  | Some _ =>
      match isStillConnected env candidate with
      | StillConnected => (let! _ := setSoTimeout candidate timeout in ret true) s
      | NotConnected => Ret false s
      | ProbeThrows => Throw ProbeThrew s
      end
  end.

(** [try { ... } catch (...) { destroy candidate; throw; }]. *)
Definition probe_or_destroy (env : Env) (candidate : addr) (timeout : Milliseconds)
    : M bool := fun s =>
  match probe env candidate timeout s with
  | Throw e s' =>
      match _destroyConnection_inlock_inUse candidate s' with
      | Ret _ s'' => Throw e s''
      | Throw e' s'' => Throw e' s''
      | Crash f => Crash f
      | OutOfFuel => OutOfFuel
      end
  | other => other
  end.

(** One turn of the [for] loop of [acquireConnection], [again] being
    what the next turns do: [Some candidate] when the function returns
    from inside the loop, [None] when the loop is left for the dialing
    code. *)
Definition loop_turn (again : M (option addr)) (env : Env) (target : HostAndPort)
    (now : Date_t) (timeout : Milliseconds) : M (option addr) :=
  let! s := get in
  match _connections s !! target with
  | None => ret None
  | Some hostConns =>
      (* _cleanUpOlderThan_inlock(now, &hostConns->second) *)
      let! hostConns' := _cleanUpOlderThan_inlock_list now hostConns in
      let! _ := modify (set_connections <[target := hostConns']>) in
      match hostConns' with
      | [] =>
          let! _ := modify (set_lastUsedHosts <[target := kNeverTooStale]>) in
          ret None
      | c :: rest =>
          (* splice the front node into _inUseConnections *)
          let! _ := modify (set_connections <[target := rest]>) in
          let! _ := modify (set_inUseConnections (cons c)) in
          let candidate := conn c in
          let! alive := probe_or_destroy env candidate timeout in
          if (alive : bool) then ret (Some candidate)
          else
            let! _ := _destroyConnection_inlock_inUse candidate in
            again
      end
  end.

(** The loop.  Every turn takes a node off the idle list of [target],
    so fuel beyond the length of that list is never used. *)
Fixpoint acquire_loop (fuel : nat) (env : Env) (target : HostAndPort) (now : Date_t)
    (timeout : Milliseconds) : M (option addr) :=
  match fuel with
  | O => fun _ => OutOfFuel
  | S fuel' => loop_turn (acquire_loop fuel' env target now timeout) env target now timeout
  end.

(** The first address from [p] on that holds no object of [hp]; no more
    than [size hp] addresses hold one. *)
Fixpoint first_free (hp : gmap addr DBClientConnection) (fuel : nat) (p : addr) : addr :=
  match fuel with
  | O => p
  | S fuel' =>
      match hp !! p with
      | None => p
      | Some _ => first_free hp fuel' (S p)
      end
  end.

(** The address [operator new] returns: the block the allocator of the
    environment picks when that holds no object, which may be a block
    deleted before; otherwise the first block from [nextAddr] on, below
    which lie the blocks handed out so far. *)
Definition operator_new (env : Env) (s : State) : addr :=
  let unused := first_free (heap s) (size (heap s)) (nextAddr s) in
  match newAddress env with
  | None => unused
  | Some q =>
      match heap s !! q with
      | None => q
      | Some _ => unused
      end
  end.

(** [new DBClientConnection], owned by the local [unique_ptr]. *)
Definition new_conn (env : Env) : M addr := fun s =>
  let p := operator_new env s in
  Ret p (set_nextAddr (Nat.max (nextAddr s) (S p))
          (set_heap <[p := mkConn (EmptyString, 0%N) 0%Z (newPortTag env) false]> s)).

(** Unwinding out of the dialing code: the [unique_ptr] deletes. *)
Definition unwind {A} (p : addr) (e : Exception) : M A :=
  let! _ := delete_conn p in throw e.

(** The code of [acquireConnection] after the loop.  A connection that
    [connect] accepted reports [target] as its server. *)
Definition dial (env : Env) (target : HostAndPort) (now : Date_t)
    (timeout : Milliseconds) : M addr :=
  let! p := new_conn env in
  let! _ := setSoTimeout p timeout in
  if negb (connect env target).1 then
    unwind p (ConnectFailed target (connect env target).2)
  else
    let! s := get in
    let! _ := modify (set_heap <[p := mkConn target timeout
                                   (Z.lor (newPortTag env) (_messagingPortTags s))
                                   false]>) in
    let! _ :=
      if isAuthEnabled env then
        if negb (isInternalAuthSet env) then unwind p AuthenticationFailed
        else if negb (authSucceeds env) then unwind p AuthRejected
        else ret tt
      else ret tt in
    let! _ := modify (set_inUseConnections (cons (mkInfo p now))) in
    ret p.

Definition idle_of (target : HostAndPort) (s : State) : ConnectionList :=
  default [] (_connections s !! target).

(** ** Public member functions *)

Definition acquireConnection (env : Env) (target : HostAndPort) (now : Date_t)
    (timeout : Milliseconds) : M addr :=
  let! _ := _cleanUpStaleHosts_inlock now in
  let! s := get in
  let! found := acquire_loop (S (length (idle_of target s))) env target now timeout in
  match found with
  | Some candidate => ret candidate
  | None => dial env target now timeout
  end.

Definition releaseConnection (iter : addr) (now : Date_t) : M unit :=
  let! s := get in
  match find_iter iter (_inUseConnections s) with
  | None => crash InvalidIterator
  | Some info =>
      if negb (_shouldKeepConnection now info) then
        _destroyConnection_inlock_inUse iter
      else
        match heap s !! conn info with
        | None => crash UseOfFreed
        | Some c =>
            let host := getServerHostAndPort c in
            (* operator[] makes the entry when there is none *)
            let! hostConns' := _cleanUpOlderThan_inlock_list now (idle_of host s) in
            let! _ := modify (set_connections <[host := info :: hostConns']>) in
            let! _ := modify (set_inUseConnections (erase iter)) in
            let! s' := get in
            match heap s' !! conn info with
            | None => crash UseOfFreed
            | Some c' => modify (set_lastUsedHosts <[getServerHostAndPort c' := now]>)
            end
        end
  end.

Definition destroyConnection (iter : addr) : M unit :=
  _destroyConnection_inlock_inUse iter.

(** The constructor; [_lastCleanUpTime] is a default-constructed
    [Date_t], the epoch. *)
Definition ConnectionPool (messagingPortTags : Z) : State :=
  mkState ∅ 0 messagingPortTags ∅ [] ∅ 0%Z.

(** The destructor. *)
Definition ConnectionPool_dtor : M unit :=
  let! _ := cleanUpOlderThan kNeverTooStale in
  let! s := get in
  if negb (bool_decide (_connections s = ∅)) then crash InvariantFailure
  else match _inUseConnections s with
       | [] => ret tt
       | _ => crash InvariantFailure
       end.

(** ** ConnectionPool::ConnectionPtr *)

Inductive PoolPtr := NULL | this_pool.

Record ConnectionPtr := mkPtr {
  _pool : PoolPtr;
  _connInfo : addr
}.

Definition ConnectionPtr_ctor (env : Env) (target : HostAndPort) (now : Date_t)
    (timeout : Milliseconds) : M ConnectionPtr :=
  let! it := acquireConnection env target now timeout in
  ret (mkPtr this_pool it).

Definition ConnectionPtr_dtor (p : ConnectionPtr) : M unit :=
  match _pool p with
  | this_pool => destroyConnection (_connInfo p)
  | NULL => ret tt
  end.

Definition done (p : ConnectionPtr) (now : Date_t) : M ConnectionPtr :=
  match _pool p with
  | NULL => crash NullPool
  | this_pool =>
      let! _ := releaseConnection (_connInfo p) now in
      ret (mkPtr NULL (_connInfo p))
  end.

(** ** Vocabulary of the statements *)

(** The integer [z] is a value of [Date_t]. *)
Definition representable (z : Z) : Prop :=
  (- 2 ^ 63 <= z <= kNeverTooStale)%Z.

(** The pool keeps the record at time [now]. *)
Definition keeps (now : Date_t) (c : ConnectionInfo) : Prop :=
  _shouldKeepConnection now c = true.

#[global] Instance keeps_dec now c : Decision (keeps now c).
Proof. unfold keeps. apply _. Defined.

Definition kept (now : Date_t) (l : ConnectionList) : ConnectionList :=
  filter (keeps now) l.

Definition expired (now : Date_t) (l : ConnectionList) : ConnectionList :=
  filter (fun c => ¬ keeps now c) l.

(** The records of [l] with [creationDate + kMaxConnectionAge <= now],
    and the others, the sum being the sum of integers. *)
Definition old_at (now : Date_t) (l : ConnectionList) : ConnectionList :=
  filter (fun r => (creationDate r + kMaxConnectionAge <= now)%Z) l.

Definition young_at (now : Date_t) (l : ConnectionList) : ConnectionList :=
  filter (fun r => (now < creationDate r + kMaxConnectionAge)%Z) l.

(** The heap after [delete] of each address of [ps], in order. *)
Definition free_list (ps : list addr) (hp : gmap addr DBClientConnection)
    : gmap addr DBClientConnection :=
  foldl (fun hp p => delete p hp) hp ps.

(** The addresses of [ps] hold objects and no address occurs twice:
    what deleting them one after the other needs. *)
Definition deletable (ps : list addr) (hp : gmap addr DBClientConnection) : Prop :=
  NoDup ps ∧ ∀ p, p ∈ ps → is_Some (hp !! p).

(** [post m s Q E]: from [s], [m] does not run out of fuel; when it
    returns, [Q] holds of the result and the final state; when it throws,
    [E] holds of the exception and the final state. *)
Definition post {A} (m : M A) (s : State)
    (Q : A → State → Prop) (E : Exception → State → Prop) : Prop :=
  match m s with
  | Ret a s' => Q a s'
  | Throw e s' => E e s'
  | Crash _ => True
  | OutOfFuel => False
  end.

(** A property of pools that every step of [acquireConnection] at time
    [now] keeps. *)
Record acquire_stable (now : Date_t) (I : State → Prop) : Prop := {
  stable_heap s f : I s → I (set_heap f s);
  stable_nextAddr s n : I s → I (set_nextAddr n s);
  stable_never_stale s h :
    I s → I (set_lastUsedHosts <[h := kNeverTooStale]> s);
  stable_swept s : I s → I (set_lastCleanUpTime now s);
  stable_clean s h l :
    I s → _connections s !! h = Some l →
    I (set_connections <[h := kept now l]> s);
  stable_splice s h c rest :
    I s → _connections s !! h = Some (c :: rest) →
    I (set_inUseConnections (cons c) (set_connections <[h := rest]> s));
  stable_erase s iter :
    I s → I (set_inUseConnections (fun _ => erase iter (_inUseConnections s)) s);
  stable_dial s p : I s → I (set_inUseConnections (cons (mkInfo p now)) s)
}.

(** The exceptions of the dialing code. *)
Definition dial_error (e : Exception) : Prop :=
  match e with
  | ProbeThrew => False
  | _ => True
  end.

(** [acquireConnection] after its sweep. *)
Definition acquire_after_sweep (env : Env) (target : HostAndPort) (now : Date_t)
    (timeout : Milliseconds) : M addr :=
  let! s := get in
  let! found := acquire_loop (S (length (idle_of target s))) env target now timeout in
  match found with
  | Some candidate => ret candidate
  | None => dial env target now timeout
  end.

(** The pool after the front record [c] of the swept idle list of
    [target] was taken and destroyed; [s] is the pool after the sweep of
    that list. *)
Definition candidate_destroyed (target : HostAndPort) (c : ConnectionInfo)
    (rest : ConnectionList) (s : State) : State :=
  set_heap (delete (conn c)) (set_connections <[target := rest]> s).

(** The pool after the swept idle list of [target] was found empty. *)
Definition marked_never_stale (target : HostAndPort) (s : State) : State :=
  set_lastUsedHosts <[target := kNeverTooStale]>
    (set_connections <[target := []]> s).

(** Every idle record of the pool, host after host. *)
Definition all_idle (s : State) : ConnectionList :=
  mjoin (map_to_list (_connections s)).*2.

(** What [_cleanUpOlderThan_inlock(now)] makes of the entry of a host. *)
Definition swept_entry (now : Date_t) (entry : option ConnectionList)
    : option ConnectionList :=
  match entry with
  | None => None
  | Some l => match kept now l with
              | [] => None
              | l' => Some l'
              end
  end.

(** ** Sequences of calls *)

(** A call of a public member function by a client of the pool. *)
Inductive Call :=
  | acquire (env : Env) (target : HostAndPort) (now : Date_t) (timeout : Milliseconds)
  | release (iter : addr) (now : Date_t)
  | destroy (iter : addr)
  | cleanUp (now : Date_t)
  | closeAll.

Definition call (c : Call) : M unit :=
  match c with
  | acquire env target now timeout =>
      let! _ := acquireConnection env target now timeout in ret tt
  | release iter now => releaseConnection iter now
  | destroy iter => destroyConnection iter
  | cleanUp now => cleanUpOlderThan now
  | closeAll => closeAllInUseConnections
  end.

(** The client catches what [acquireConnection] throws and goes on. *)
Definition caught (m : M unit) : M unit := fun s =>
  match m s with
  | Throw _ s' => Ret tt s'
  | o => o
  end.

Definition calls (cs : list Call) : M unit :=
  forM_ (fun c => caught (call c)) cs.

(** The calls that put [now] into the pool read a clock that does not
    run backwards from [T], and that stays [kCleanUpInterval] away from
    [Date_t::max()]. *)
Fixpoint clocked (T : Date_t) (cs : list Call) : Prop :=
  match cs with
  | [] => True
  | acquire _ _ now _ :: cs' | release _ now :: cs' =>
      (T <= now)%Z ∧ (now <= kNeverTooStale - kCleanUpInterval)%Z ∧ clocked now cs'
  | _ :: cs' => clocked T cs'
  end.

(** The number of list nodes of the pool, idle or in use, that hold the
    address [p]. *)
Definition nodes_of (p : addr) (l : ConnectionList) : nat :=
  length (filter (fun c => conn c = p) l).

Definition holders (p : addr) (s : State) : nat :=
  nodes_of p (_inUseConnections s)
  + sum_list ((fun e => nodes_of p e.2) <$> map_to_list (_connections s)).

(** The creation date of every record is a [Date_t] that is at most [T],
    the creation date of an idle record is at most the last-used time of
    its host, and the time of the last sweep is a [Date_t] that stays
    [kCleanUpInterval] away from [Date_t::max()]. *)
Definition dated (T : Date_t) (s : State) : Prop :=
  (∀ h l r, _connections s !! h = Some l → r ∈ l →
     (- 2 ^ 63 <= creationDate r <= T)%Z
     ∧ ∃ t, _lastUsedHosts s !! h = Some t ∧ (creationDate r <= t)%Z)
  ∧ (∀ r, r ∈ _inUseConnections s → (- 2 ^ 63 <= creationDate r <= T)%Z)
  ∧ (- 2 ^ 63 <= _lastCleanUpTime s <= kNeverTooStale - kCleanUpInterval)%Z.

(** The clock after a call. *)
Definition clock_after (T : Date_t) (c : Call) : Date_t :=
  match c with
  | acquire _ _ now _ | release _ now => now
  | _ => T
  end.

(** ** Vocabulary of the further properties *)

(** [setSoTimeout] on a connection object. *)
Definition with_timeout (timeout : Milliseconds) (x : DBClientConnection)
    : DBClientConnection :=
  mkConn (getServerHostAndPort x) timeout (portTag x) (portShutdown x).

(** The pool after the front record [c] of the swept idle list of
    [target] was taken, probed and found connected; [x] is its connection
    object and [s] the pool after the sweep of that list. *)
Definition candidate_taken (target : HostAndPort) (c : ConnectionInfo)
    (rest : ConnectionList) (x : DBClientConnection) (timeout : Milliseconds)
    (s : State) : State :=
  set_heap <[conn c := with_timeout timeout x]>
    (set_inUseConnections (cons c) (set_connections <[target := rest]> s)).

(** The connection object that [acquireConnection] has dialed. *)
Definition dialed (env : Env) (target : HostAndPort) (timeout : Milliseconds)
    (s : State) : DBClientConnection :=
  mkConn target timeout (Z.lor (newPortTag env) (_messagingPortTags s)) false.

(** The pool after the dialing code failed: the block was handed out and
    holds no object. *)
Definition dial_failed (env : Env) (s : State) : State :=
  set_nextAddr (Nat.max (nextAddr s) (S (operator_new env s)))
    (set_heap (delete (operator_new env s)) s).

(** The pool after the dialing code succeeded at time [now]. *)
Definition dial_succeeded (env : Env) (target : HostAndPort) (now : Date_t)
    (timeout : Milliseconds) (s : State) : State :=
  set_inUseConnections (cons (mkInfo (operator_new env s) now))
    (set_nextAddr (Nat.max (nextAddr s) (S (operator_new env s)))
       (set_heap <[operator_new env s := dialed env target timeout s]> s)).

(** What made [acquireConnection] throw [e]. *)
Definition thrown_for (env : Env) (target : HostAndPort) (now : Date_t) (s : State)
    (e : Exception) : Prop :=
  match e with
  | ConnectFailed t errmsg => t = target ∧ connect env target = (false, errmsg)
  | AuthenticationFailed =>
      (connect env target).1 = true ∧ isAuthEnabled env = true
      ∧ isInternalAuthSet env = false
  | AuthRejected =>
      (connect env target).1 = true ∧ isAuthEnabled env = true
      ∧ isInternalAuthSet env = true ∧ authSucceeds env = false
  | ProbeThrew =>
      ∃ c, c ∈ idle_of target s ∧ keeps now c
           ∧ isStillConnected env (conn c) = ProbeThrows
  end.

(** The pool [s'] has the records in use of [s], no connection object
    that [s] has not and no idle record that [s] has not. *)
Definition shrunk (s s' : State) : Prop :=
  _inUseConnections s' = _inUseConnections s
  ∧ nextAddr s ≤ nextAddr s'
  ∧ _messagingPortTags s' = _messagingPortTags s
  ∧ heap s' ⊆ heap s
  ∧ ∀ h, idle_of h s' `sublist_of` idle_of h s.

(** The record that [acquireConnection] returned from [s] is in use in
    [s']; it was idle for the target and not expired, or was dialed; and
    [s'] has nothing else that [s] has not. *)
Definition acquired (env : Env) (target : HostAndPort) (now : Date_t)
    (timeout : Milliseconds) (s : State) (it : addr) (s' : State) : Prop :=
  ∃ info x,
    _inUseConnections s' = info :: _inUseConnections s
    ∧ conn info = it
    ∧ heap s' !! it = Some x
    ∧ soTimeoutMillis x = timeout
    ∧ (∀ h, idle_of h s' `sublist_of` idle_of h s)
    ∧ delete it (heap s') ⊆ heap s
    ∧ ((info ∈ idle_of target s ∧ keeps now info ∧ nextAddr s' = nextAddr s
        ∧ ∃ x0, heap s !! it = Some x0 ∧ x = with_timeout timeout x0)
       ∨ (creationDate info = now
          ∧ x = dialed env target timeout s
          ∧ nextAddr s' = Nat.max (nextAddr s) (S it)
          ∧ (newAddress env = None → heap s !! nextAddr s = None → it = nextAddr s)
          ∧ ∃ hp, hp ⊆ heap s ∧ hp !! it = None ∧ heap s' = <[it := x]> hp)).

(** The pool after [releaseConnection(iter, now)] pooled the record
    [info], whose connection is to [host]. *)
Definition pooled (iter : addr) (now : Date_t) (info : ConnectionInfo)
    (host : HostAndPort) (s : State) : State :=
  set_lastUsedHosts <[host := now]>
    (set_inUseConnections (erase iter)
       (set_connections <[host := info :: kept now (idle_of host s)]>
          (set_heap (free_list (conn <$> expired now (idle_of host s))) s))).

(** What a sweep of stale hosts that is due makes of a last-used time,
    [last] being the time of the previous sweep. *)
Definition restamp (last : Date_t) (t : Date_t) : Date_t :=
  if (t <=? last)%Z then kNeverTooStale else t.

(** The address [p] is held by a list node of the pool. *)
Definition held (p : addr) (s : State) : Prop :=
  p ∈ conn <$> _inUseConnections s ∨ ∃ h, p ∈ conn <$> idle_of h s.

(** Every connection object of the heap is held by a list node. *)
Definition no_leak (s : State) : Prop :=
  ∀ p, is_Some (heap s !! p) → held p s.

(** ** Concrete pools and networks used below *)

Definition hostA : HostAndPort := ("a.example"%string, 27017%N).
Definition hostB : HostAndPort := ("b.example"%string, 27017%N).

Definition network_up : Env :=
  mkEnv (fun _ => StillConnected) (fun _ => (true, EmptyString)) 0%Z false false true None.

Definition probe_dead : Env :=
  mkEnv (fun _ => NotConnected) (fun _ => (true, EmptyString)) 0%Z false false true None.

Definition probe_throws : Env :=
  mkEnv (fun _ => ProbeThrows) (fun _ => (true, EmptyString)) 0%Z false false true None.

(** A network in which the connection at address 1 is dead. *)
Definition second_dead : Env :=
  mkEnv (fun p => if Nat.eqb p 1 then NotConnected else StillConnected)
        (fun _ => (true, EmptyString)) 0%Z false false true None.

(** [network_up] with an allocator that hands out the block [p] when it
    holds no object. *)
Definition block_reused (p : addr) : Env :=
  mkEnv (fun _ => StillConnected) (fun _ => (true, EmptyString)) 0%Z false false true
        (Some p).

(** The times 100 seconds and 10 seconds before [Date_t::max()]. *)
Definition far_future : Date_t := (kNeverTooStale - 100000)%Z.
Definition near_max : Date_t := (kNeverTooStale - 10000)%Z.

Definition connA (timeout : Milliseconds) : DBClientConnection :=
  mkConn hostA timeout 0%Z false.

(** One connection to [hostA], made at time 0 and in use. *)
Definition one_in_use : State :=
  mkState {[ 0 := connA 1000%Z ]} 1 0%Z ∅ [mkInfo 0 0%Z] ∅ 0%Z.

(** The same connection after [releaseConnection] at time 0. *)
Definition one_idle : State :=
  mkState {[ 0 := connA 1000%Z ]} 1 0%Z {[ hostA := [mkInfo 0 0%Z] ]} []
          {[ hostA := 0%Z ]} 0%Z.

(** [one_idle] after [acquireConnection] took the connection back. *)
Definition one_taken : State :=
  mkState {[ 0 := connA 1000%Z ]} 1 0%Z {[ hostA := [] ]} [mkInfo 0 0%Z]
          {[ hostA := 0%Z ]} 0%Z.

(** [one_idle] after [cleanUpOlderThan] at time 30000. *)
Definition one_expired : State :=
  mkState ∅ 1 0%Z ∅ [] {[ hostA := 0%Z ]} 0%Z.

(** A connection to [hostA] made at time 350000, released and taken
    back: the idle list of [hostA] is there and is empty. *)
Definition late_taken : State :=
  mkState {[ 0 := connA 1000%Z ]} 1 0%Z {[ hostA := [] ]} [mkInfo 0 350000%Z]
          {[ hostA := 350000%Z ]} 350000%Z.

(** A connection to [hostA] made at time 290000 and released by a
    client whose clock then read 0. *)
Definition back_in_time : State :=
  mkState {[ 0 := connA 1000%Z ]} 1 0%Z {[ hostA := [mkInfo 0 290000%Z] ]} []
          {[ hostA := 0%Z ]} 0%Z.

#[global] Arguments acquireConnection : simpl never.
#[global] Arguments releaseConnection : simpl never.
#[global] Arguments destroyConnection : simpl never.
#[global] Arguments cleanUpOlderThan : simpl never.
#[global] Arguments closeAllInUseConnections : simpl never.
#[global] Arguments _cleanUpStaleHosts_inlock : simpl never.
#[global] Arguments _destroyConnection_inlock_inUse : simpl never.


(** * Properties *)

(** ** Rules for [post] *)

Section post_rules.
Context {A B : Type}.
Implicit Types (Q : A → State → Prop) (E : Exception → State → Prop).

Lemma post_bind (m : M A) (k : A → M B) s (R : B → State → Prop) E :
  post m s (fun a s' => post (k a) s' R E) E → post (bind m k) s R E.
Proof. unfold post, bind. by destruct (m s). Qed.

Lemma post_ret (a : A) s Q E : Q a s → post (ret a) s Q E.
Proof. done. Qed.

Lemma post_throw (e : Exception) s Q E : E e s → post (throw e) s Q E.
Proof. done. Qed.

Lemma post_crash (f : Fault) s Q E : post (crash f) s Q E.
Proof. done. Qed.

Lemma post_weaken (m : M A) s Q Q' E E' :
  post m s Q E → (∀ a s', Q a s' → Q' a s') → (∀ e s', E e s' → E' e s') →
  post m s Q' E'.
Proof. unfold post. destruct (m s); auto. Qed.

Lemma post_Ret (m : M A) s Q E a s' : post m s Q E → m s = Ret a s' → Q a s'.
Proof. unfold post. intros H Heq. by rewrite Heq in H. Qed.

Lemma post_Throw (m : M A) s Q E e s' : post m s Q E → m s = Throw e s' → E e s'.
Proof. unfold post. intros H Heq. by rewrite Heq in H. Qed.
End post_rules.

Lemma post_get s (Q : State → State → Prop) E : Q s s → post get s Q E.
Proof. done. Qed.

Lemma post_modify f s (Q : unit → State → Prop) E : Q tt (f s) → post (modify f) s Q E.
Proof. done. Qed.

Lemma post_forM_ {A} (f : A → M unit) (I : State → Prop) E (l : list A) s :
  (∀ x s, x ∈ l → I s → post (f x) s (fun _ => I) E) →
  I s → post (forM_ f l) s (fun _ => I) E.
Proof.
  revert s. induction l as [|x l IH]; intros s Hf Hs; [done|].
  cbn [forM_]. apply post_bind.
  eapply post_weaken; [apply Hf; [by left | done] | | done].
  intros ? s' Hs'. cbn beta in *. apply IH; [|done].
  intros y s0 Hy. apply Hf. by right.
Qed.

Ltac post_step :=
  cbv beta;
  lazymatch goal with
  | |- post (bind _ _) _ _ _ => apply post_bind
  | |- post get _ _ _ => apply post_get
  | |- post (modify _) _ _ _ => apply post_modify
  | |- post (ret _) _ _ _ => apply post_ret
  | |- post (crash _) _ _ _ => apply post_crash
  | |- post (throw _) _ _ _ => apply post_throw
  end;
  cbv beta.

(** What [delete] and the sweep of a list leave behind: the state they
    started from, with another heap. *)
Lemma post_delete_conn p s (Q : unit → State → Prop) E :
  (∀ x, heap s !! p = Some x → Q tt (set_heap (delete p) s)) →
  post (delete_conn p) s Q E.
Proof. unfold post, delete_conn. destruct (heap s !! p) eqn:H; eauto. Qed.

(** ** Dates *)

Lemma wrap64_exact z : representable z → wrap64 z = z.
Proof.
  unfold representable, wrap64, kNeverTooStale.
  change (2 ^ 63)%Z with 9223372036854775808%Z.
  change (2 ^ 64)%Z with 18446744073709551616%Z.
  intros H. rewrite Z.mod_small; lia.
Qed.

Lemma wrap64_representable z : representable (wrap64 z).
Proof.
  unfold representable, wrap64, kNeverTooStale.
  change (2 ^ 63)%Z with 9223372036854775808%Z.
  change (2 ^ 64)%Z with 18446744073709551616%Z.
  pose proof (Z.mod_pos_bound (z + 9223372036854775808) 18446744073709551616). lia.
Qed.

(** Wrapping around only makes a value of [Date_t] or above smaller. *)
Lemma wrap64_le z : (- 2 ^ 63 <= z)%Z → (wrap64 z <= z)%Z.
Proof.
  unfold wrap64.
  change (2 ^ 63)%Z with 9223372036854775808%Z.
  change (2 ^ 64)%Z with 18446744073709551616%Z.
  intros H.
  pose proof (Z.mod_le (z + 9223372036854775808) 18446744073709551616). lia.
Qed.

Lemma Date_t_plus_exact d ms :
  representable (d + ms) → Date_t_plus d ms = (d + ms)%Z.
Proof. apply wrap64_exact. Qed.

(** ** Age test *)

Lemma shouldKeep_false now c :
  _shouldKeepConnection now c = false
  ↔ (Date_t_plus (creationDate c) kMaxConnectionAge <= now)%Z.
Proof.
  unfold _shouldKeepConnection. cbv zeta.
  destruct (Z.leb_spec (Date_t_plus (creationDate c) kMaxConnectionAge) now) as [H|H].
  - split; auto.
  - split; [discriminate | lia].
Qed.

Lemma not_keeps now c :
  ¬ keeps now c ↔ (Date_t_plus (creationDate c) kMaxConnectionAge <= now)%Z.
Proof.
  unfold keeps. rewrite <- shouldKeep_false. destruct (_shouldKeepConnection now c); naive_solver.
Qed.

Lemma keeps_iff now c :
  keeps now c ↔ (now < Date_t_plus (creationDate c) kMaxConnectionAge)%Z.
Proof.
  unfold keeps. destruct (_shouldKeepConnection now c) eqn:E.
  - split; [|done]. intros _.
    destruct (Z.le_gt_cases (Date_t_plus (creationDate c) kMaxConnectionAge) now)
      as [H|H]; [|lia].
    apply shouldKeep_false in H. congruence.
  - apply shouldKeep_false in E. split; [done | lia].
Qed.

(** At [Date_t::max()] every record has expired. *)
Lemma expired_at_max c : _shouldKeepConnection kNeverTooStale c = false.
Proof.
  apply shouldKeep_false. unfold Date_t_plus.
  by destruct (wrap64_representable (creationDate c + kMaxConnectionAge)).
Qed.

(** The age test on a record whose expiration date is a [Date_t]. *)
Lemma keeps_exact now c :
  representable (creationDate c + kMaxConnectionAge) →
  keeps now c ↔ (now < creationDate c + kMaxConnectionAge)%Z.
Proof. intros H. by rewrite keeps_iff, Date_t_plus_exact. Qed.

(** ** The sweep of one list *)

Lemma lookup_free_list ps hp p :
  free_list ps hp !! p = if decide (p ∈ ps) then None else hp !! p.
Proof.
  revert hp. induction ps as [|q ps IH]; intros hp.
  - case_decide as H; [by apply elem_of_nil in H | done].
  - unfold free_list in *. cbn [foldl]. rewrite IH.
    destruct (decide (p = q)) as [->|Hne].
    + rewrite lookup_delete_eq.
      destruct (decide (q ∈ q :: ps)) as [_|H]; [by case_decide | set_solver].
    + rewrite lookup_delete_ne by done.
      destruct (decide (p ∈ ps)) as [H1|H1], (decide (p ∈ q :: ps)) as [H2|H2];
        try done; exfalso.
      * apply H2. by right.
      * apply elem_of_cons in H2 as [?|?]; auto.
Qed.

Lemma filter_age_keep now c l :
  _shouldKeepConnection now c = true →
  kept now (c :: l) = c :: kept now l ∧ expired now (c :: l) = expired now l.
Proof.
  intros E. unfold kept, expired. rewrite !filter_cons.
  destruct (decide (keeps now c)) as [_|H]; [|by destruct H].
  destruct (decide (¬ keeps now c)) as [H|_]; [by destruct H | done].
Qed.

Lemma filter_age_drop now c l :
  _shouldKeepConnection now c = false →
  kept now (c :: l) = kept now l ∧ expired now (c :: l) = c :: expired now l.
Proof.
  intros E. unfold kept, expired. rewrite !filter_cons.
  assert (¬ keeps now c) as Hn by (unfold keeps; congruence).
  destruct (decide (keeps now c)) as [H|_]; [by destruct Hn|].
  destruct (decide (¬ keeps now c)) as [_|H]; [done | by destruct H].
Qed.

(** What the sweep of a list returns, whenever it returns. *)
Lemma cleanUp_list_Ret now l s l' s' :
  _cleanUpOlderThan_inlock_list now l s = Ret l' s' →
  l' = kept now l ∧ s' = set_heap (free_list (conn <$> expired now l)) s.
Proof.
  revert s l' s'. induction l as [|c l IH]; intros s l' s'; simpl.
  - intros [= <- <-]. by destruct s.
  - destruct (_shouldKeepConnection now c) eqn:E.
    + destruct (filter_age_keep now c l E) as [-> ->].
      unfold bind at 1.
      destruct (_cleanUpOlderThan_inlock_list now l s) as [l1 s1| | |] eqn:E1; try done.
      intros [= <- <-]. by destruct (IH _ _ _ E1) as [-> ->].
    + destruct (filter_age_drop now c l E) as [-> ->].
      unfold bind at 1, delete_conn.
      destruct (heap s !! conn c); [|done].
      intros H. destruct (IH _ _ _ H) as [-> ->]. done.
Qed.

(** The sweep of a list neither throws nor loops; its only fault is the
    deletion of an address that holds no object. *)
Lemma cleanUp_list_cases now l s :
  (∃ l' s', _cleanUpOlderThan_inlock_list now l s = Ret l' s') ∨
  _cleanUpOlderThan_inlock_list now l s = Crash DeleteOfFreed.
Proof.
  revert s. induction l as [|c l IH]; intros s; simpl; [left; eauto|].
  destruct (_shouldKeepConnection now c).
  - unfold bind. destruct (IH s) as [(l' & s' & ->)| ->]; [left; eauto | by right].
  - unfold bind, delete_conn. destruct (heap s !! conn c); [apply IH | by right].
Qed.

Lemma post_cleanUp_list now l s (Q : ConnectionList → State → Prop) E :
  Q (kept now l) (set_heap (free_list (conn <$> expired now l)) s) →
  post (_cleanUpOlderThan_inlock_list now l) s Q E.
Proof.
  intros H. unfold post.
  destruct (_cleanUpOlderThan_inlock_list now l s) as [l' s'|e s'|f|] eqn:Hc; try done.
  - by apply cleanUp_list_Ret in Hc as [-> ->].
  - destruct (cleanUp_list_cases now l s) as [(?&?&?)|?]; congruence.
  - destruct (cleanUp_list_cases now l s) as [(?&?&?)|?]; congruence.
Qed.

(** The sweep of a list returns when the expired records can be deleted. *)
Lemma cleanUp_list_ok now l s :
  deletable (conn <$> expired now l) (heap s) →
  _cleanUpOlderThan_inlock_list now l s
  = Ret (kept now l) (set_heap (free_list (conn <$> expired now l)) s).
Proof.
  revert s. induction l as [|c l IH]; intros s; simpl.
  - intros _. by destruct s.
  - destruct (_shouldKeepConnection now c) eqn:E.
    + destruct (filter_age_keep now c l E) as [-> ->].
      intros H. unfold bind. by rewrite (IH s H).
    + destruct (filter_age_drop now c l E) as [-> ->].
      rewrite fmap_cons. intros [Hnd Hlive].
      apply NoDup_cons in Hnd as [Hnotin Hnd].
      unfold bind, delete_conn.
      destruct (Hlive (conn c)) as [x ->]; [by left|].
      rewrite IH; [done|]. split; [done|].
      intros p Hp. simpl. rewrite lookup_delete_ne by (intros <-; done).
      apply Hlive. by right.
Qed.

(** ** ConnectionPool::ConnectionPtr *)

(** C7.  A [ConnectionPtr] on which [done(now)] was called has released
    its record and is inert: its destructor does nothing to the pool.  A
    [ConnectionPtr] that is destroyed without [done] destroys its record.
    So the life of a constructed handle applies to the acquired record
    either [releaseConnection] once, or [destroyConnection] once. *)
Theorem C7_ConnectionPtr_release_xor_destroy env target now0 timeout now s :
  (let! p := ConnectionPtr_ctor env target now0 timeout in
   let! p' := done p now in
   ConnectionPtr_dtor p') s
  = (let! it := acquireConnection env target now0 timeout in
     releaseConnection it now) s
  ∧ (let! p := ConnectionPtr_ctor env target now0 timeout in
     ConnectionPtr_dtor p) s
    = (let! it := acquireConnection env target now0 timeout in
       destroyConnection it) s
  ∧ (∀ p s1, ConnectionPtr_ctor env target now0 timeout s = Ret p s1 →
       ∀ p' s2, done p now s1 = Ret p' s2 →
         _pool p' = NULL ∧ ∀ s3, ConnectionPtr_dtor p' s3 = Ret tt s3).
Proof.
  unfold ConnectionPtr_ctor, bind, ret.
  destruct (acquireConnection env target now0 timeout s) as [it s1|e s1|f|]; cbn.
  - unfold done, bind, ret; cbn.
    split; [|split].
    + by destruct (releaseConnection it now s1) as [[] ?| | |].
    + done.
    + intros ? ? [= <- <-] ? ?. cbn.
      destruct (releaseConnection it now s1); intros [= <- <-]; done.
  - repeat split; done.
  - repeat split; done.
  - repeat split; done.
Qed.

(** ** closeAllInUseConnections *)



(** ** releaseConnection *)

Lemma find_iter_Some iter l info :
  find_iter iter l = Some info → conn info = iter ∧ info ∈ l.
Proof.
  unfold find_iter. intros H. apply find_some in H as [Hin Heq].
  apply Nat.eqb_eq in Heq. split; [done|]. by apply list_elem_of_In.
Qed.

Lemma destroy_inUse_ok iter info c s :
  find_iter iter (_inUseConnections s) = Some info →
  heap s !! conn info = Some c →
  _destroyConnection_inlock_inUse iter s
  = Ret tt (set_inUseConnections (fun _ => erase iter (_inUseConnections s))
             (set_heap (delete (conn info)) s)).
Proof.
  intros Hf Hc. unfold _destroyConnection_inlock_inUse, _destroyConnection_inlock,
    bind, get, delete_conn, ret, modify.
  rewrite Hf, Hc. done.
Qed.

Lemma find_iter_app l1 info l2 :
  (∀ r, r ∈ l1 → conn r ≠ conn info) →
  find_iter (conn info) (l1 ++ info :: l2) = Some info.
Proof.
  intros Hl1. unfold find_iter. induction l1 as [|r l1 IH]; cbn.
  - by rewrite Nat.eqb_refl.
  - destruct (Nat.eqb_spec (conn r) (conn info)) as [Heq|_].
    + exfalso. by apply (Hl1 r); [left|].
    + apply IH. intros r' Hr'. apply Hl1. by right.
Qed.

Lemma erase_app l1 info l2 :
  (∀ r, r ∈ l1 → conn r ≠ conn info) →
  erase (conn info) (l1 ++ info :: l2) = l1 ++ l2.
Proof.
  intros Hl1. induction l1 as [|r l1 IH]; cbn.
  - by rewrite Nat.eqb_refl.
  - destruct (Nat.eqb_spec (conn r) (conn info)) as [Heq|_].
    + exfalso. by apply (Hl1 r); [left|].
    + f_equal. apply IH. intros r' Hr'. apply Hl1. by right.
Qed.

(** ** The concrete pools are pools a client can reach *)

Lemma one_in_use_reached :
  calls [acquire network_up hostA 0 1000] (ConnectionPool 0) = Ret tt one_in_use.
Proof. vm_compute. reflexivity. Qed.

Lemma one_idle_reached :
  calls [acquire network_up hostA 0 1000; release 0 0] (ConnectionPool 0)
  = Ret tt one_idle.
Proof. vm_compute. reflexivity. Qed.

Lemma one_taken_reached :
  calls [acquire network_up hostA 0 1000; release 0 0; acquire network_up hostA 0 1000]
        (ConnectionPool 0)
  = Ret tt one_taken.
Proof. vm_compute. reflexivity. Qed.

Lemma one_expired_reached :
  calls [acquire network_up hostA 0 1000; release 0 0; cleanUp 30000] (ConnectionPool 0)
  = Ret tt one_expired.
Proof. vm_compute. reflexivity. Qed.

Lemma late_taken_reached :
  calls [acquire network_up hostA 350000 1000; release 0 350000;
         acquire network_up hostA 350000 1000] (ConnectionPool 0)
  = Ret tt late_taken.
Proof. vm_compute. reflexivity. Qed.

Lemma back_in_time_reached :
  calls [acquire network_up hostA 290000 1000; release 0 0] (ConnectionPool 0)
  = Ret tt back_in_time.
Proof. vm_compute. reflexivity. Qed.

(** ** The stale-host sweep works on a copy *)

(** C2.  The sweep at time 300001 of the pool [one_idle], whose host
    was last used at the time of the previous sweep: the connection of
    the idle record is deleted, the host is marked never stale and the
    sweep time is advanced, but the record is still in the list that
    [_connections] stores for the host. *)
Theorem C2_stale_sweep_keeps_deleted_record :
  ∃ s', _cleanUpStaleHosts_inlock 300001 one_idle = Ret tt s'
      ∧ heap s' !! 0 = None
      ∧ _connections s' !! hostA = Some [mkInfo 0 0%Z]
      ∧ _lastUsedHosts s' !! hostA = Some kNeverTooStale
      ∧ _lastCleanUpTime s' = 300001%Z.
Proof. eexists. split; [vm_compute; reflexivity|]. vm_compute. done. Qed.

(** C3.  After acquire, release and an acquire for another host that
    runs the sweep, the first connection has been destroyed and its
    record is still a node of the idle list of its host: a destroyed
    record is held by one container, not by none. *)
Theorem C3_destroyed_record_still_idle :
  ∃ s', calls [acquire network_up hostA 0 1000; release 0 0;
               acquire network_up hostB 300001 1000] (ConnectionPool 0) = Ret tt s'
      ∧ heap s' !! 0 = None
      ∧ idle_of hostA s' = [mkInfo 0 0%Z]
      ∧ holders 0 s' = 1.
Proof. eexists. split; [vm_compute; reflexivity|]. vm_compute. done. Qed.

(** C10.  In the pool [one_expired], reached by acquire, release and
    [cleanUpOlderThan], the host is in [_lastUsedHosts] with a time that
    is not after the last sweep and has no entry in [_connections]; the
    next sweep dereferences [_connections.end()]. *)
Theorem C10_sweep_dereferences_end :
  calls [acquire network_up hostA 0 1000; release 0 0; cleanUp 30000] (ConnectionPool 0)
  = Ret tt one_expired
  ∧ _lastUsedHosts one_expired !! hostA = Some 0%Z
  ∧ _lastCleanUpTime one_expired = 0%Z
  ∧ _connections one_expired !! hostA = None
  ∧ _cleanUpStaleHosts_inlock 300001 one_expired = Crash EndIteratorDeref
  ∧ acquireConnection network_up hostB 300001 1000 one_expired = Crash EndIteratorDeref.
Proof. vm_compute. done. Qed.

(** ** Where the design document says more than the code does *)

(** C1, counterexample.  The probe of the only idle candidate throws:
    the candidate is destroyed and the exception of the probe, not an
    error of the dialing code, leaves [acquireConnection]. *)
Lemma C1_probe_exception_reaches_caller :
  ∃ s', acquireConnection probe_throws hostA 0 1000 one_idle = Throw ProbeThrew s'
      ∧ heap s' !! 0 = None.
Proof. eexists. split; [vm_compute; reflexivity|]. vm_compute. done. Qed.

(** C4, counterexample.  [hostA] has no entry in [_connections]:
    [acquireConnection] dials and leaves the last-used time of the host
    at 0, not at [kNeverTooStale]. *)
Lemma C4_absent_list_is_not_marked :
  _connections one_expired !! hostA = None
  ∧ ∃ it s', acquireConnection network_up hostA 30000 1000 one_expired = Ret it s'
           ∧ _inUseConnections s' = [mkInfo it 30000%Z]
           ∧ _lastUsedHosts s' !! hostA = Some 0%Z.
Proof. split; [done|]. do 2 eexists. split; [vm_compute; reflexivity|]. vm_compute. done. Qed.

(** C6, counterexample.  The only record of [late_taken] was made at
    time 350000; [cleanUpOlderThan(10)] erases the empty idle list of
    [hostA] from [_connections].  The sweep that [acquireConnection]
    runs at time 700001 succeeds before that call and dereferences
    [_connections.end()] after it. *)
Lemma C6_early_cleanUp_is_not_a_noop :
  ∃ s', cleanUpOlderThan 10 late_taken = Ret tt s'
      ∧ _connections late_taken !! hostA = Some []
      ∧ _connections s' !! hostA = None
      ∧ s' ≠ late_taken
      ∧ (∃ it s2, acquireConnection network_up hostB 700001 1000 late_taken = Ret it s2)
      ∧ acquireConnection network_up hostB 700001 1000 s' = Crash EndIteratorDeref.
Proof.
  eexists. split; [vm_compute; reflexivity|].
  split; [done|]. split; [done|]. split; [discriminate|].
  split; [do 2 eexists|]; vm_compute; reflexivity.
Qed.

(** ** Calls that break what the design document says *)

(** C5.  [releaseConnection] on a record that [acquireConnection] handed
    out and that has [now < creationDate + kMaxConnectionAge].  First, a
    record made 10 seconds before [Date_t::max()] and released at once:
    the sum of the age test wraps around, the test finds the record
    expired, and the record is destroyed, not pooled.  Second, a record
    made at time 300001 in the block of the connection that the sweep of
    stale hosts had just deleted through its copy of the idle list of
    [hostA]: [cleanUpOlderThan] deletes the block through the record that
    list still holds, and [releaseConnection] calls a member of the
    deleted connection. *)
Theorem C5_release_does_not_pool :
  (∃ s1 s2,
     calls [acquire network_up hostA near_max 1000] (ConnectionPool 0) = Ret tt s1
     ∧ _inUseConnections s1 = [mkInfo 0 near_max]
     ∧ (near_max < near_max + kMaxConnectionAge)%Z
     ∧ releaseConnection 0 near_max s1 = Ret tt s2
     ∧ heap s2 !! 0 = None
     ∧ _inUseConnections s2 = []
     ∧ _connections s2 !! hostA = None)
  ∧ (∃ s1,
     calls [acquire network_up hostA 0 1000; release 0 0;
            acquire (block_reused 0) hostB 300001 1000; cleanUp 300002]
           (ConnectionPool 0) = Ret tt s1
     ∧ _inUseConnections s1 = [mkInfo 0 300001%Z]
     ∧ heap s1 !! 0 = None
     ∧ (300002 < 300001 + kMaxConnectionAge)%Z
     ∧ releaseConnection 0 300002 s1 = Crash UseOfFreed).
Proof.
  split.
  - do 2 eexists. split; [vm_compute; reflexivity|].
    split; [reflexivity|]. split; [unfold kMaxConnectionAge; lia|].
    split; [vm_compute; reflexivity|]. vm_compute. done.
  - eexists. split; [vm_compute; reflexivity|].
    split; [reflexivity|]. split; [vm_compute; reflexivity|].
    split; [unfold kMaxConnectionAge; lia|]. vm_compute. reflexivity.
Qed.

(** C9.  The [invariant] of the stale-host sweep fails.  First, in
    [back_in_time], where a client has released at time 0 a connection
    made at time 290000: at time 300001 the sweep is due, the host was
    last used at the time of the last sweep, and its idle record is not
    expired.  Second, with a clock that does not run backwards: a
    connection is made and released at [far_future], 100 seconds before
    [Date_t::max()], which is then the time of the last sweep; 5 seconds
    later [_lastCleanUpTime + kCleanUpInterval] wraps around, the sweep
    is due again, the host was last used at the time of the last sweep,
    and its idle record is 5 seconds old. *)
Theorem C9_sweep_invariant_fails :
  (calls [acquire network_up hostA 290000 1000; release 0 0] (ConnectionPool 0)
   = Ret tt back_in_time
   ∧ _lastUsedHosts back_in_time !! hostA = Some 0%Z
   ∧ _lastCleanUpTime back_in_time = 0%Z
   ∧ (300001 > _lastCleanUpTime back_in_time + kCleanUpInterval)%Z
   ∧ _connections back_in_time !! hostA = Some [mkInfo 0 290000%Z]
   ∧ ¬ (290000 + kMaxConnectionAge <= 300001)%Z
   ∧ _cleanUpStaleHosts_inlock 300001 back_in_time = Crash InvariantFailure
   ∧ acquireConnection network_up hostB 300001 1000 back_in_time
     = Crash InvariantFailure)
  ∧ (∃ s,
     calls [acquire network_up hostA far_future 1000; release 0 far_future]
           (ConnectionPool 0) = Ret tt s
     ∧ _lastUsedHosts s !! hostA = Some far_future
     ∧ _lastCleanUpTime s = far_future
     ∧ _connections s !! hostA = Some [mkInfo 0 far_future]
     ∧ ¬ (far_future + kMaxConnectionAge <= far_future + 5000)%Z
     ∧ _cleanUpStaleHosts_inlock (far_future + 5000) s = Crash InvariantFailure
     ∧ acquireConnection network_up hostB (far_future + 5000) 1000 s
       = Crash InvariantFailure).
Proof.
  split.
  - split; [vm_compute; reflexivity|].
    split; [done|]. split; [done|]. split; [done|]. split; [done|].
    split; [unfold kMaxConnectionAge; lia|].
    split; vm_compute; reflexivity.
  - eexists. split; [vm_compute; reflexivity|].
    split; [vm_compute; reflexivity|]. split; [reflexivity|].
    split; [vm_compute; reflexivity|].
    split; [unfold kMaxConnectionAge; lia|].
    split; vm_compute; reflexivity.
Qed.

(** In the pool that C3 reaches, [hostA] has an idle record whose
    connection is deleted: [cleanUpOlderThan] deletes it again. *)
Lemma cleanUpOlderThan_deletes_twice :
  calls [acquire network_up hostA 0 1000; release 0 0;
         acquire network_up hostB 300001 1000; cleanUp 300002] (ConnectionPool 0)
  = Crash DeleteOfFreed.
Proof. vm_compute. reflexivity. Qed.

(** ** What the steps of [acquireConnection] leave behind *)

Lemma post_destroy_inUse iter s (Q : unit → State → Prop) E :
  (∀ info, find_iter iter (_inUseConnections s) = Some info →
     Q tt (set_inUseConnections (fun _ => erase iter (_inUseConnections s))
            (set_heap (delete (conn info)) s))) →
  post (_destroyConnection_inlock_inUse iter) s Q E.
Proof.
  intros H. unfold post, _destroyConnection_inlock_inUse, _destroyConnection_inlock,
    bind, get, crash, delete_conn, ret, modify.
  destruct (find_iter iter (_inUseConnections s)) as [info|] eqn:Hf; [|done].
  destruct (heap s !! conn info); [|done]. by apply H.
Qed.

Lemma post_setSoTimeout p timeout s (Q : unit → State → Prop) E :
  (∀ hp, Q tt (set_heap (fun _ => hp) s)) → post (setSoTimeout p timeout) s Q E.
Proof.
  intros H. unfold post, setSoTimeout. destruct (heap s !! p); [|done]. apply H.
Qed.

Lemma post_probe env candidate timeout s (Q : bool → State → Prop) E :
  (∀ hp, Q true (set_heap (fun _ => hp) s)) →
  Q false s →
  (isStillConnected env candidate = ProbeThrows → E ProbeThrew s) →
  post (probe env candidate timeout) s Q E.
Proof.
  intros Ht Hf He. unfold post, probe.
  destruct (heap s !! candidate) as [x|] eqn:Hx; [|done].
  destruct (isStillConnected env candidate); [|done|by apply He].
  unfold bind, setSoTimeout, ret. rewrite Hx. apply Ht.
Qed.

Lemma post_probe_or_destroy env candidate timeout s (Q : bool → State → Prop) E :
  (∀ hp, Q true (set_heap (fun _ => hp) s)) →
  Q false s →
  (isStillConnected env candidate = ProbeThrows →
   ∀ info, find_iter candidate (_inUseConnections s) = Some info →
     E ProbeThrew (set_inUseConnections (fun _ => erase candidate (_inUseConnections s))
                    (set_heap (delete (conn info)) s))) →
  post (probe_or_destroy env candidate timeout) s Q E.
Proof.
  intros Ht Hf He. unfold post, probe_or_destroy.
  pose proof (post_probe env candidate timeout s Q
                (fun e s' => e = ProbeThrew ∧ s' = s
                             ∧ isStillConnected env candidate = ProbeThrows) Ht Hf) as Hp.
  unfold post in Hp.
  destruct (probe env candidate timeout s) as [b s1|e s1|f|]; try done.
  - by apply Hp.
  - destruct Hp as (-> & -> & Hthrows); [done|].
    pose proof (post_destroy_inUse candidate s
                  (fun _ s' => E ProbeThrew s') (fun _ _ => False)) as Hd.
    unfold post in Hd.
    destruct (_destroyConnection_inlock_inUse candidate s); try done.
    + apply Hd. intros info Hi. by apply He.
    + exfalso. apply Hd. intros info Hi. by apply He.
    + apply Hd. intros info Hi. by apply He.
  - by apply Hp.
Qed.

Lemma post_unwind {A} p e s (Q : A → State → Prop) E :
  (∀ hp, E e (set_heap (fun _ => hp) s)) → post (unwind p e) s Q E.
Proof.
  intros H. unfold unwind. post_step. apply post_delete_conn. intros x Hx.
  post_step. apply H.
Qed.

Lemma post_dial env target now timeout s (Q : addr → State → Prop) E :
  (∀ p n hp, Q p (set_inUseConnections (cons (mkInfo p now))
                   (set_nextAddr n (set_heap (fun _ => hp) s)))) →
  (∀ e n hp, dial_error e → E e (set_nextAddr n (set_heap (fun _ => hp) s))) →
  post (dial env target now timeout) s Q E.
Proof.
  intros HQ HE. unfold dial. post_step. unfold post at 1, new_conn. cbv zeta.
  post_step. apply post_setSoTimeout. intros hp.
  destruct (negb (connect env target).1).
  { apply post_unwind. intros hp'. by apply HE. }
  repeat post_step.
  destruct (isAuthEnabled env); [destruct (negb (isInternalAuthSet env));
    [|destruct (negb (authSucceeds env))]|].
  - apply post_unwind. intros hp'. by apply HE.
  - apply post_unwind. intros hp'. by apply HE.
  - repeat post_step. apply HQ.
  - repeat post_step. apply HQ.
Qed.

(** ** The loop of [acquireConnection] *)

Lemma idle_of_lookup target s l :
  _connections s !! target = Some l → idle_of target s = l.
Proof. unfold idle_of. by intros ->. Qed.

(** The loop keeps every stable property, throws only what a probe
    threw, and needs no more fuel than the idle list of the target is
    long. *)
Lemma post_acquire_loop now I env target timeout n s :
  acquire_stable now I →
  I s → length (idle_of target s) < n →
  post (acquire_loop n env target now timeout) s
       (fun _ s' => I s')
       (fun e s' => I s' ∧ e = ProbeThrew ∧ ∃ p, isStillConnected env p = ProbeThrows).
Proof.
  intros HI. revert s. induction n as [|n IH]; intros s Hs Hlen; [lia|].
  cbn [acquire_loop]. unfold loop_turn. repeat post_step.
  destruct (_connections s !! target) as [l|] eqn:Hl; [|by post_step].
  rewrite (idle_of_lookup _ _ _ Hl) in Hlen.
  post_step. apply post_cleanUp_list. repeat post_step.
  set (s1 := set_heap _ s).
  assert (I s1) as Hs1 by by apply (stable_heap now I HI).
  assert (I (set_connections <[target := kept now l]> s1)) as Hs2
    by by apply (stable_clean now I HI).
  pose proof (length_filter (keeps now) l) as Hk. fold (kept now l) in Hk.
  destruct (kept now l) as [|c rest] eqn:Hkept.
  { repeat post_step. by apply (stable_never_stale now I HI). }
  repeat post_step.
  set (s3 := set_inUseConnections _ _).
  assert (I s3) as Hs3.
  { apply (stable_splice now I HI); [done|]. cbn. apply lookup_insert_eq. }
  apply post_probe_or_destroy.
  - intros hp. post_step. by apply (stable_heap now I HI).
  - post_step. apply post_destroy_inUse. intros info Hinfo.
    apply IH.
    + apply (stable_erase now I HI (set_heap (delete (conn info)) s3) (conn c)).
      by apply (stable_heap now I HI).
    + unfold idle_of. cbn. rewrite lookup_insert_eq. cbn in *. lia.
  - intros Hthrows info Hinfo. split; [|by eauto].
    apply (stable_erase now I HI (set_heap (delete (conn info)) s3) (conn c)).
    by apply (stable_heap now I HI).
Qed.

(** ** The stale-host sweep and [acquireConnection] as a whole *)

Lemma interval_exceeds_age : (kCleanUpInterval > kMaxConnectionAge)%Z.
Proof. unfold kCleanUpInterval, kMaxConnectionAge. lia. Qed.

Lemma age_not_negative : (0 <= kMaxConnectionAge)%Z.
Proof. unfold kMaxConnectionAge. lia. Qed.

Lemma post_cleanUpStaleHost now I entry s :
  acquire_stable now I → I s →
  post (cleanUpStaleHost now entry) s (fun _ s' => I s') (fun _ _ => False).
Proof.
  intros HI Hs. unfold cleanUpStaleHost. repeat post_step.
  destruct (entry.2 <=? _lastCleanUpTime s)%Z; [|by post_step].
  destruct (_connections s !! entry.1) as [l|]; [|by post_step].
  post_step. apply post_cleanUp_list.
  destruct (kept now l); [|by post_step].
  post_step. apply (stable_never_stale now I HI). by apply (stable_heap now I HI).
Qed.

(** The sweep keeps every stable property and does not throw; after it
    the sweep is not due at [now], unless [now + kCleanUpInterval] is
    beyond [Date_t::max()]. *)
Lemma post_cleanUpStaleHosts now I s :
  acquire_stable now I → I s →
  post (_cleanUpStaleHosts_inlock now) s
       (fun _ s' => I s'
                    ∧ (representable (now + kCleanUpInterval) →
                       (now <= Date_t_plus (_lastCleanUpTime s') kCleanUpInterval)%Z))
       (fun _ _ => False).
Proof.
  intros HI Hs. unfold _cleanUpStaleHosts_inlock. repeat post_step.
  destruct (Z.gtb_spec now (Date_t_plus (_lastCleanUpTime s) kCleanUpInterval))
    as [Hdue|Hnot].
  - post_step.
    eapply post_weaken;
      [apply (post_forM_ _ I (fun _ _ => False)); [|done] | | done].
    + intros e s0 _ Hs0. by apply post_cleanUpStaleHost.
    + intros ? s' Hs'. post_step. split; [by apply (stable_swept now I HI)|].
      cbn. intros Hrep. rewrite Date_t_plus_exact by done.
      unfold kCleanUpInterval. lia.
  - post_step. split; [done | lia].
Qed.

(** [acquireConnection] keeps every stable property, needs no fuel
    beyond what it is given, and throws either an error of the dialing
    code or what a probe threw. *)
Lemma post_acquireConnection now I env target timeout s :
  acquire_stable now I → I s →
  post (acquireConnection env target now timeout) s
       (fun _ s' => I s')
       (fun e s' => I s' ∧ (e = ProbeThrew → ∃ p, isStillConnected env p = ProbeThrows)).
Proof.
  intros HI Hs. unfold acquireConnection. post_step.
  eapply post_weaken; [by apply (post_cleanUpStaleHosts now I) | | done].
  intros ? s1 [Hs1 _]. repeat post_step.
  eapply post_weaken; [apply (post_acquire_loop now I); [done|done|lia] | | ].
  - intros [candidate|] s2 Hs2; [by post_step|].
    apply post_dial.
    + intros p n hp. apply (stable_dial now I HI), (stable_nextAddr now I HI).
      by apply (stable_heap now I HI).
    + intros e n hp He. split.
      * apply (stable_nextAddr now I HI). by apply (stable_heap now I HI).
      * intros ->. done.
  - intros e s2 (Hs2 & -> & Hp). done.
Qed.

(** ** One turn of the loop *)

Lemma acquire_loop_S n env target now timeout :
  acquire_loop (S n) env target now timeout
  = loop_turn (acquire_loop n env target now timeout) env target now timeout.
Proof. reflexivity. Qed.

Lemma acquireConnection_after_sweep env target now timeout s s1 :
  _cleanUpStaleHosts_inlock now s = Ret tt s1 →
  acquireConnection env target now timeout s
  = acquire_after_sweep env target now timeout s1.
Proof. intros H. unfold acquireConnection, bind at 1. by rewrite H. Qed.

Lemma loop_turn_absent again env target now timeout s :
  _connections s !! target = None →
  loop_turn again env target now timeout s = Ret None s.
Proof. intros H. unfold loop_turn, bind, get. by rewrite H. Qed.

Lemma loop_turn_empty again env target now timeout s l s2 :
  _connections s !! target = Some l →
  _cleanUpOlderThan_inlock_list now l s = Ret [] s2 →
  loop_turn again env target now timeout s = Ret None (marked_never_stale target s2).
Proof.
  intros Hl Hc. unfold loop_turn, bind at 1, get. rewrite Hl.
  unfold bind at 1. rewrite Hc. done.
Qed.

Lemma set_connections_twice target (l1 l2 : ConnectionList) s :
  set_connections <[target := l2]> (set_connections <[target := l1]> s)
  = set_connections <[target := l2]> s.
Proof. unfold set_connections. cbn. by rewrite insert_insert_eq. Qed.

Lemma loop_turn_dead again env target now timeout s l c rest s2 x :
  _connections s !! target = Some l →
  _cleanUpOlderThan_inlock_list now l s = Ret (c :: rest) s2 →
  heap s2 !! conn c = Some x →
  isStillConnected env (conn c) = NotConnected →
  loop_turn again env target now timeout s
  = again (candidate_destroyed target c rest s2).
Proof.
  intros Hl Hc Hx Hdead. unfold loop_turn, bind at 1, get. rewrite Hl.
  unfold bind at 1. rewrite Hc.
  unfold bind at 1, modify at 1. unfold bind at 1, modify at 1.
  unfold bind at 1, modify at 1. rewrite set_connections_twice.
  unfold bind at 1, probe_or_destroy, probe. cbn [heap set_inUseConnections set_connections].
  rewrite Hx, Hdead.
  unfold bind, _destroyConnection_inlock_inUse, _destroyConnection_inlock, bind, get,
    find_iter, delete_conn, modify, ret.
  cbn. rewrite Nat.eqb_refl. cbn. rewrite Hx. done.
Qed.

Lemma loop_turn_throws again env target now timeout s l c rest s2 x :
  _connections s !! target = Some l →
  _cleanUpOlderThan_inlock_list now l s = Ret (c :: rest) s2 →
  heap s2 !! conn c = Some x →
  isStillConnected env (conn c) = ProbeThrows →
  loop_turn again env target now timeout s
  = Throw ProbeThrew (candidate_destroyed target c rest s2).
Proof.
  intros Hl Hc Hx Hthrows. unfold loop_turn, bind at 1, get. rewrite Hl.
  unfold bind at 1. rewrite Hc.
  unfold bind at 1, modify at 1. unfold bind at 1, modify at 1.
  unfold bind at 1, modify at 1. rewrite set_connections_twice.
  unfold bind at 1, probe_or_destroy, probe. cbn [heap set_inUseConnections set_connections].
  rewrite Hx, Hthrows.
  unfold _destroyConnection_inlock_inUse, _destroyConnection_inlock, bind, get,
    find_iter, delete_conn, modify, ret.
  cbn. rewrite Nat.eqb_refl. cbn. rewrite Hx. done.
Qed.

(** The turn depends on the next turns only at pools in which the idle
    list of the target is shorter. *)
Lemma loop_turn_ext again1 again2 env target now timeout s :
  (∀ s', length (idle_of target s') < length (idle_of target s) →
         again1 s' = again2 s') →
  loop_turn again1 env target now timeout s = loop_turn again2 env target now timeout s.
Proof.
  intros Hagain. unfold loop_turn, bind, get, modify. cbv beta iota.
  destruct (_connections s !! target) as [l|] eqn:Hl; [|done].
  destruct (_cleanUpOlderThan_inlock_list now l s) as [l' s2| | |] eqn:Hc; try done.
  apply cleanUp_list_Ret in Hc as [-> ->].
  pose proof (length_filter (keeps now) l) as Hk. fold (kept now l) in Hk.
  destruct (kept now l) as [|c rest] eqn:Hkept; [done|].
  set (s3 := set_inUseConnections _ _).
  pose proof (post_probe_or_destroy env (conn c) timeout s3
                (fun _ s' => _connections s' = _connections s3) (fun _ _ => True)) as Hp.
  unfold post in Hp.
  destruct (probe_or_destroy env (conn c) timeout s3) as [[] s4| | |]; try done.
  assert (_connections s4 = _connections s3) as H4 by by apply Hp.
  pose proof (post_destroy_inUse (conn c) s4
                (fun _ s' => _connections s' = _connections s4) (fun _ _ => True)) as Hd.
  unfold post in Hd.
  destruct (_destroyConnection_inlock_inUse (conn c) s4) as [[] s5| | |]; try done.
  assert (_connections s5 = _connections s4) as H5 by by apply Hd.
  apply Hagain. unfold idle_of. rewrite H5, H4, Hl. cbn.
  rewrite lookup_insert_eq. cbn in *. lia.
Qed.

(** Fuel beyond the length of the idle list of the target changes
    nothing. *)
Lemma acquire_loop_fuel n m env target now timeout s :
  length (idle_of target s) < n → length (idle_of target s) < m →
  acquire_loop n env target now timeout s = acquire_loop m env target now timeout s.
Proof.
  revert m s. induction n as [|n IH]; intros m s Hn Hm; [lia|].
  destruct m as [|m]; [lia|].
  rewrite !acquire_loop_S. apply loop_turn_ext.
  intros s' Hs'. apply IH; lia.
Qed.

Lemma stable_True now : acquire_stable now (fun _ => True).
Proof. by split. Qed.

Lemma sweep_not_due now s :
  (now <= Date_t_plus (_lastCleanUpTime s) kCleanUpInterval)%Z →
  _cleanUpStaleHosts_inlock now s = Ret tt s.
Proof.
  intros H. unfold _cleanUpStaleHosts_inlock, bind, get.
  destruct (Z.gtb_spec now (Date_t_plus (_lastCleanUpTime s) kCleanUpInterval));
    [lia | done].
Qed.

Lemma sweep_done now s s1 :
  _cleanUpStaleHosts_inlock now s = Ret tt s1 →
  representable (now + kCleanUpInterval) →
  (now <= Date_t_plus (_lastCleanUpTime s1) kCleanUpInterval)%Z.
Proof.
  intros H.
  by destruct (post_Ret _ _ _ _ _ _
                 (post_cleanUpStaleHosts now _ s (stable_True now) Logic.I) H).
Qed.

(** ** acquireConnection: idle list absent or empty *)

(** C4.  After the sweep of stale hosts, when [_connections] has a list
    for the target and the sweep of that list at [now] leaves it empty,
    [acquireConnection] marks the target never stale and goes on to the
    dialing code; when [_connections] has no list for the target,
    [acquireConnection] goes on to the dialing code in the pool as the
    sweep left it, [_lastUsedHosts] included. *)
Theorem C4_acquire_without_idle_list env target now timeout s s1 :
  _cleanUpStaleHosts_inlock now s = Ret tt s1 →
  (_connections s1 !! target = None →
     acquireConnection env target now timeout s = dial env target now timeout s1)
  ∧ (∀ l s2,
       _connections s1 !! target = Some l →
       _cleanUpOlderThan_inlock_list now l s1 = Ret [] s2 →
       acquireConnection env target now timeout s
       = dial env target now timeout (marked_never_stale target s2)
       ∧ _lastUsedHosts (marked_never_stale target s2) !! target = Some kNeverTooStale
       ∧ _connections (marked_never_stale target s2) !! target = Some []).
Proof.
  intros Hsweep. rewrite (acquireConnection_after_sweep _ _ _ _ _ _ Hsweep).
  unfold acquire_after_sweep, bind at 1, get. split.
  - intros Hnone. unfold bind. rewrite acquire_loop_S.
    by rewrite (loop_turn_absent _ _ _ _ _ _ Hnone).
  - intros l s2 Hl Hc. split; [|split].
    + unfold bind. rewrite acquire_loop_S.
      by rewrite (loop_turn_empty _ _ _ _ _ _ _ _ Hl Hc).
    + cbn. apply lookup_insert_eq.
    + cbn. apply lookup_insert_eq.
Qed.

(** ** acquireConnection: probes that fail *)

(** C1.  After the sweep of stale hosts and of the idle list of the
    target, let [c] be the front record of that list, its connection
    live.  When the probe of [c] reports the connection dead,
    [acquireConnection] destroys [c] and goes on as it does after its
    sweep of stale hosts in the pool without [c]: it tries the next idle
    record, or dials.  That is what [acquireConnection] does in the pool
    without [c], when [now + kCleanUpInterval] is a [Date_t]; beyond
    [Date_t::max()] the sweep of stale hosts, just done, is due again.
    When the probe of [c] throws, [acquireConnection] destroys [c] and
    throws what the probe threw.  Whatever [acquireConnection] throws is
    an error of the dialing code or was thrown by a probe. *)
Theorem C1_probe_failures env target now timeout s :
  (∀ s1 l c rest s2 x,
     _cleanUpStaleHosts_inlock now s = Ret tt s1 →
     _connections s1 !! target = Some l →
     _cleanUpOlderThan_inlock_list now l s1 = Ret (c :: rest) s2 →
     heap s2 !! conn c = Some x →
     (isStillConnected env (conn c) = NotConnected →
        acquireConnection env target now timeout s
        = acquire_after_sweep env target now timeout
            (candidate_destroyed target c rest s2)
        ∧ (representable (now + kCleanUpInterval) →
           acquireConnection env target now timeout s
           = acquireConnection env target now timeout
               (candidate_destroyed target c rest s2)))
     ∧ (isStillConnected env (conn c) = ProbeThrows →
        acquireConnection env target now timeout s
        = Throw ProbeThrew (candidate_destroyed target c rest s2)))
  ∧ (∀ e s', acquireConnection env target now timeout s = Throw e s' →
       dial_error e ∨ (e = ProbeThrew ∧ ∃ p, isStillConnected env p = ProbeThrows))
  ∧ acquireConnection env target now timeout s ≠ OutOfFuel.
Proof.
  pose proof (post_acquireConnection now _ env target timeout s
                (stable_True now) Logic.I) as Hpost.
  split; [|split].
  - intros s1 l c rest s2 x Hsweep Hl Hc Hx.
    rewrite (acquireConnection_after_sweep _ _ _ _ _ _ Hsweep). split.
    + intros Hdead.
      assert (acquire_after_sweep env target now timeout s1
              = acquire_after_sweep env target now timeout
                  (candidate_destroyed target c rest s2)) as Hnext.
      { unfold acquire_after_sweep at 1, bind at 1, get. unfold bind at 1.
        rewrite acquire_loop_S.
        rewrite (loop_turn_dead _ _ _ _ _ _ _ _ _ _ _ Hl Hc Hx Hdead).
        destruct (cleanUp_list_Ret _ _ _ _ _ Hc) as [Hkept Hs2].
        unfold acquire_after_sweep, bind, get.
        pose proof (length_filter (keeps now) l) as Hk. fold (kept now l) in Hk.
        rewrite <- Hkept in Hk. rewrite (idle_of_lookup _ _ _ Hl).
        assert (idle_of target (candidate_destroyed target c rest s2) = rest) as Hrest.
        { unfold idle_of. cbn. by rewrite lookup_insert_eq. }
        rewrite (acquire_loop_fuel (length l) (S (length rest))); [by rewrite Hrest| |].
        * rewrite Hrest. cbn in Hk. lia.
        * rewrite Hrest. lia. }
      split; [exact Hnext|]. intros Hrep. rewrite Hnext. symmetry.
      apply acquireConnection_after_sweep, sweep_not_due.
      destruct (cleanUp_list_Ret _ _ _ _ _ Hc) as [_ ->].
      by apply (sweep_done _ _ _ Hsweep).
    + intros Hthrows.
      unfold acquire_after_sweep, bind at 1, get. unfold bind at 1.
      rewrite acquire_loop_S.
      by rewrite (loop_turn_throws _ _ _ _ _ _ _ _ _ _ _ Hl Hc Hx Hthrows).
  - intros e s' He. destruct (post_Throw _ _ _ _ _ _ Hpost He) as [_ H].
    destruct e; try (by left). right. split; [done|]. by apply H.
  - intros Hout. unfold post in Hpost. by rewrite Hout in Hpost.
Qed.

(** Beyond [Date_t::max() - kCleanUpInterval] the retry is not a call of
    [acquireConnection] in the pool without the candidate.  Two
    connections to [hostA] are made at [far_future] and released a second
    later; a second after that, the sweep of stale hosts runs and the
    probe of the front record reports it dead.  [acquireConnection] goes
    on to the next record and returns it; called in the pool without
    the dead candidate, it would run the sweep of stale hosts again,
    [_lastCleanUpTime + kCleanUpInterval] having wrapped around, and fail
    its [invariant]. *)
Lemma retry_beyond_max :
  ∃ s s1 s',
    calls [acquire network_up hostA far_future 1000;
           acquire network_up hostA far_future 1000;
           release 0 (far_future + 1000); release 1 (far_future + 1000)]
          (ConnectionPool 0) = Ret tt s
    ∧ _cleanUpStaleHosts_inlock (far_future + 2000) s = Ret tt s1
    ∧ acquireConnection second_dead hostA (far_future + 2000) 1000 s = Ret 0 s'
    ∧ acquire_after_sweep second_dead hostA (far_future + 2000) 1000
        (candidate_destroyed hostA (mkInfo 1 far_future) [mkInfo 0 far_future] s1)
      = Ret 0 s'
    ∧ acquireConnection second_dead hostA (far_future + 2000) 1000
        (candidate_destroyed hostA (mkInfo 1 far_future) [mkInfo 0 far_future] s1)
      = Crash InvariantFailure.
Proof.
  do 3 eexists. split; [vm_compute; reflexivity|].
  split; [vm_compute; reflexivity|]. split; [vm_compute; reflexivity|].
  split; vm_compute; reflexivity.
Qed.

(** ** cleanUpOlderThan *)

Lemma free_list_app ps qs hp : free_list (ps ++ qs) hp = free_list qs (free_list ps hp).
Proof. unfold free_list. by rewrite foldl_app. Qed.

Lemma deletable_app ps qs hp :
  deletable (ps ++ qs) hp → deletable ps hp ∧ deletable qs (free_list ps hp).
Proof.
  intros [Hnd Hlive]. apply NoDup_app in Hnd as (Hps & Hdisj & Hqs).
  split; split; try done.
  - intros p Hp. apply Hlive, elem_of_app. by left.
  - intros p Hp. rewrite lookup_free_list.
    rewrite decide_False by (intros Hin; by apply (Hdisj p)).
    apply Hlive, elem_of_app. by right.
Qed.

Lemma expired_app now l1 l2 : expired now (l1 ++ l2) = expired now l1 ++ expired now l2.
Proof. apply filter_app. Qed.

Lemma cleanUp_hosts_loop now entries s :
  NoDup entries.*1 →
  deletable (conn <$> expired now (mjoin entries.*2)) (heap s) →
  ∃ cs, forM_ (cleanUpHost now) entries s
        = Ret tt (set_connections (fun _ => cs)
                   (set_heap (free_list (conn <$> expired now (mjoin entries.*2))) s))
      ∧ (∀ h l, (h, l) ∈ entries → cs !! h = swept_entry now (Some l))
      ∧ (∀ h, h ∉ entries.*1 → cs !! h = _connections s !! h).
Proof.
  revert s. induction entries as [|[h0 l0] es IH]; intros s Hnd Hdel.
  - exists (_connections s). split; [by destruct s|]. split; [|done].
    intros h l Hin. by apply elem_of_nil in Hin.
  - cbn in Hnd. apply NoDup_cons in Hnd as [Hh0 Hnd].
    rewrite fmap_cons in Hdel |- *. cbn [snd mjoin list_join] in Hdel |- *.
    rewrite expired_app, fmap_app in Hdel |- *.
    apply deletable_app in Hdel as [Hdel0 Hdel].
    set (gone0 := conn <$> expired now l0) in *.
    cbn [forM_]. unfold bind at 1, cleanUpHost at 1, bind at 1. cbn [fst snd].
    rewrite (cleanUp_list_ok _ _ _ Hdel0). fold gone0.
    destruct (kept now l0) as [|c0 k0] eqn:Hk0.
    + unfold modify at 1.
      destruct (IH (set_connections (delete h0) (set_heap (free_list gone0) s)))
        as (cs & -> & Hin & Hout); [done|done|].
      exists cs. split;
        [unfold set_connections, set_heap; cbn; by rewrite free_list_app|]. split.
      * intros h l Hhl. apply elem_of_cons in Hhl as [[= -> ->]|Hhl]; [|by apply Hin].
        rewrite Hout by done. cbn. rewrite Hk0. apply lookup_delete_eq.
      * intros h Hh. apply not_elem_of_cons in Hh as [Hne Hh].
        rewrite Hout by done. cbn. by rewrite lookup_delete_ne.
    + unfold modify at 1.
      destruct (IH (set_connections <[h0 := c0 :: k0]> (set_heap (free_list gone0) s)))
        as (cs & -> & Hin & Hout); [done|done|].
      exists cs. split;
        [unfold set_connections, set_heap; cbn; by rewrite free_list_app|]. split.
      * intros h l Hhl. apply elem_of_cons in Hhl as [[= -> ->]|Hhl]; [|by apply Hin].
        rewrite Hout by done. cbn. rewrite Hk0. apply lookup_insert_eq.
      * intros h Hh. apply not_elem_of_cons in Hh as [Hne Hh].
        rewrite Hout by done. cbn. by rewrite lookup_insert_ne.
Qed.

(** The age test sorts the records whose expiration date is a [Date_t]
    as the sum of integers does. *)
Lemma kept_exact now l :
  (∀ r, r ∈ l → representable (creationDate r + kMaxConnectionAge)) →
  kept now l = young_at now l ∧ expired now l = old_at now l.
Proof.
  intros Hrep. induction l as [|c l IH]; [done|].
  assert (representable (creationDate c + kMaxConnectionAge)) as Hc
    by (apply Hrep; by left).
  destruct IH as [IH1 IH2]; [intros r Hr; apply Hrep; by right|].
  unfold young_at, old_at in *. rewrite !filter_cons.
  destruct (_shouldKeepConnection now c) eqn:E.
  - destruct (filter_age_keep now c l E) as [-> ->].
    apply (keeps_exact now c Hc) in E.
    rewrite decide_True by done. rewrite decide_False by lia. by rewrite IH1, IH2.
  - destruct (filter_age_drop now c l E) as [-> ->].
    apply shouldKeep_false in E. rewrite Date_t_plus_exact in E by done.
    rewrite decide_False by lia. rewrite decide_True by done. by rewrite IH1, IH2.
Qed.

Lemma all_young_at now l :
  (∀ r, r ∈ l → (now < creationDate r)%Z) → young_at now l = l ∧ old_at now l = [].
Proof.
  intros H. unfold young_at, old_at. induction l as [|c l IH]; [done|].
  assert ((now < creationDate c)%Z) as Hc by (apply H; by left).
  destruct IH as [IH1 IH2]; [intros r Hr; apply H; by right|].
  rewrite !filter_cons. pose proof age_not_negative.
  rewrite decide_True by lia. rewrite decide_False by lia. by rewrite IH1, IH2.
Qed.

Lemma elem_of_all_idle s h l r :
  _connections s !! h = Some l → r ∈ l → r ∈ all_idle s.
Proof.
  intros Hl Hr. unfold all_idle. apply list_elem_of_join. exists l. split; [done|].
  apply list_elem_of_fmap. exists (h, l). split; [done|].
  by apply elem_of_map_to_list.
Qed.

(** C6.  In a pool in which no idle record has an expiration date
    beyond [Date_t::max()] and the expired idle records can be deleted,
    [cleanUpOlderThan(now)] returns.  It has deleted the connections of
    the idle records with [creationDate + kMaxConnectionAge <= now] and
    no other object; every idle list holds the records it held that are
    not expired, in their order, and a host whose list is then empty has
    no entry; the records in use, [_lastUsedHosts] and [_lastCleanUpTime]
    are unchanged.  When [now] precedes the creation date of every idle
    record, no connection is deleted and no nonempty list changes: only
    the entries of hosts whose list was empty go. *)
Theorem C6_cleanUpOlderThan now s :
  (∀ r, r ∈ all_idle s → representable (creationDate r + kMaxConnectionAge)) →
  deletable (conn <$> old_at now (all_idle s)) (heap s) →
  ∃ s', cleanUpOlderThan now s = Ret tt s'
      ∧ heap s' = free_list (conn <$> old_at now (all_idle s)) (heap s)
      ∧ (∀ p, heap s' !! p = if decide (p ∈ conn <$> old_at now (all_idle s))
                             then None else heap s !! p)
      ∧ (∀ h, _connections s' !! h
              = match _connections s !! h with
                | None => None
                | Some l => match young_at now l with
                            | [] => None
                            | l' => Some l'
                            end
                end)
      ∧ _inUseConnections s' = _inUseConnections s
      ∧ _lastUsedHosts s' = _lastUsedHosts s
      ∧ _lastCleanUpTime s' = _lastCleanUpTime s
      ∧ ((∀ r, r ∈ all_idle s → (now < creationDate r)%Z) →
           heap s' = heap s
           ∧ ∀ h, _connections s' !! h
                  = match _connections s !! h with
                    | Some [] => None
                    | entry => entry
                    end).
Proof.
  intros Hrep Hdel. destruct (kept_exact now _ Hrep) as [_ Hold].
  rewrite <- Hold in Hdel |- *.
  unfold cleanUpOlderThan, _cleanUpOlderThan_inlock, bind, get.
  destruct (cleanUp_hosts_loop now (map_to_list (_connections s)) s)
    as (cs & -> & Hin & Hout); [apply NoDup_fst_map_to_list | done |].
  assert (∀ h, cs !! h = swept_entry now (_connections s !! h)) as Hcs.
  { intros h. destruct (_connections s !! h) as [l|] eqn:Hl.
    - apply Hin. by apply elem_of_map_to_list.
    - rewrite Hout, Hl; [done|]. intros Hh.
      apply list_elem_of_fmap in Hh as ([h' l] & -> & Hh).
      apply elem_of_map_to_list in Hh. cbn in Hl. congruence. }
  assert (∀ h l, _connections s !! h = Some l → kept now l = young_at now l) as Hyoung.
  { intros h l Hl. apply kept_exact. intros r Hr. apply Hrep.
    by eapply elem_of_all_idle. }
  eexists. split; [done|]. cbn. fold (all_idle s).
  split; [done|]. split; [intros p; apply lookup_free_list|]. split.
  { intros h. rewrite Hcs. destruct (_connections s !! h) as [l|] eqn:Hl; [|done].
    cbn. by rewrite (Hyoung h l Hl). }
  split; [done|]. split; [done|]. split; [done|].
  intros Hearly. rewrite Hold. destruct (all_young_at now _ Hearly) as [_ ->].
  split; [done|].
  intros h. rewrite Hcs. destruct (_connections s !! h) as [l|] eqn:Hl; [|done].
  cbn. rewrite (Hyoung h l Hl). destruct (all_young_at now l) as [-> _]; [|done].
  intros r Hr. apply Hearly. by eapply elem_of_all_idle.
Qed.

(** ** Creation dates along a sequence of calls *)

Lemma dated_mono T T' s : (T <= T')%Z → dated T s → dated T' s.
Proof.
  intros HT (Hidle & Huse & HL). split; [|split; [|done]].
  - intros h l r Hl Hr. destruct (Hidle h l r Hl Hr) as [? ?]. split; [lia|done].
  - intros r Hr. specialize (Huse r Hr). lia.
Qed.

Lemma erase_subseteq iter l r : r ∈ erase iter l → r ∈ l.
Proof.
  induction l as [|c l IH]; cbn; [done|].
  destruct (Nat.eqb (conn c) iter).
  - intros H. by right.
  - intros H. apply elem_of_cons in H as [->|H]; [by left | right; auto].
Qed.

Lemma elem_of_kept now l r : r ∈ kept now l → r ∈ l.
Proof. unfold kept. rewrite list_elem_of_filter. tauto. Qed.

Lemma dated_stable now :
  (- 2 ^ 63 <= now <= kNeverTooStale - kCleanUpInterval)%Z →
  acquire_stable now (dated now).
Proof.
  intros Hnow.
  assert ((now <= kNeverTooStale)%Z) as Hmax by (unfold kCleanUpInterval in Hnow; lia).
  split.
  - done.
  - done.
  - intros s h (Hidle & Huse & HL). split; [|done]. intros h' l r Hl Hr.
    destruct (Hidle h' l r Hl Hr) as [Hr1 (t & Ht & Hr2)]. split; [done|].
    cbn. destruct (decide (h = h')) as [->|Hne].
    + rewrite lookup_insert_eq. eexists; split; [done|lia].
    + rewrite lookup_insert_ne by done. eauto.
  - intros s (Hidle & Huse & HL). done.
  - intros s h l (Hidle & Huse & HL) Hl. split; [|done]. intros h' l' r. cbn.
    destruct (decide (h = h')) as [->|Hne].
    + rewrite lookup_insert_eq. intros [= <-] Hr.
      apply (Hidle h' l r Hl). by apply elem_of_kept in Hr.
    + rewrite lookup_insert_ne by done. apply Hidle.
  - intros s h c rest (Hidle & Huse & HL) Hl. split; [|split; [|done]].
    + intros h' l' r. cbn. destruct (decide (h = h')) as [->|Hne].
      * rewrite lookup_insert_eq. intros [= <-] Hr.
        apply (Hidle h' _ r Hl). by right.
      * rewrite lookup_insert_ne by done. apply Hidle.
    + intros r. cbn. intros Hr. apply elem_of_cons in Hr as [->|Hr]; [|by apply Huse].
      apply (Hidle h _ c Hl). by left.
  - intros s iter (Hidle & Huse & HL). split; [done|]. split; [|done].
    intros r. cbn. intros Hr. apply Huse. by apply erase_subseteq in Hr.
  - intros s p (Hidle & Huse & HL). split; [done|]. split; [|done].
    intros r. cbn. intros Hr.
    apply elem_of_cons in Hr as [->|Hr]; [cbn; lia | by apply Huse].
Qed.

Lemma release_dated iter now s :
  dated now s →
  post (releaseConnection iter now) s (fun _ => dated now) (fun _ => dated now).
Proof.
  intros (Hidle & Huse & HL). unfold releaseConnection. repeat post_step.
  destruct (find_iter iter (_inUseConnections s)) as [info|] eqn:Hf; [|by post_step].
  apply find_iter_Some in Hf as [_ Hinfo].
  destruct (negb (_shouldKeepConnection now info)).
  { apply post_destroy_inUse. intros info' _. split; [done|]. split; [|done].
    intros r. cbn. intros Hr. apply Huse. by apply erase_subseteq in Hr. }
  destruct (heap s !! conn info) as [c|] eqn:Hc; [|by post_step].
  post_step. apply post_cleanUp_list. repeat post_step.
  cbn [heap set_inUseConnections set_connections set_heap].
  rewrite lookup_free_list. case_decide; [by post_step|]. rewrite Hc.
  post_step. split; [|split; [|done]].
  - intros h l r. cbn. destruct (decide (getServerHostAndPort c = h)) as [<-|Hne].
    + rewrite !lookup_insert_eq. intros [= <-] Hr.
      assert ((- 2 ^ 63 <= creationDate r <= now)%Z) as Hle.
      { apply elem_of_cons in Hr as [->|Hr]; [by apply Huse|].
        apply elem_of_kept in Hr. unfold idle_of in Hr.
        destruct (_connections s !! getServerHostAndPort c) as [l0|] eqn:Hl0;
          [|by apply elem_of_nil in Hr].
        by destruct (Hidle _ _ _ Hl0 Hr). }
      split; [done|]. eexists. split; [done|]. lia.
    + rewrite !lookup_insert_ne by done. apply Hidle.
  - intros r. cbn. intros Hr. apply Huse. by apply erase_subseteq in Hr.
Qed.

Lemma destroy_dated iter T s :
  dated T s → post (destroyConnection iter) s (fun _ => dated T) (fun _ => dated T).
Proof.
  intros (Hidle & Huse & HL). unfold destroyConnection. apply post_destroy_inUse.
  intros info _. split; [done|]. split; [|done]. intros r. cbn. intros Hr.
  apply Huse. by apply erase_subseteq in Hr.
Qed.

Lemma closeAll_dated T s :
  dated T s → post closeAllInUseConnections s (fun _ => dated T) (fun _ => dated T).
Proof.
  intros Hs. unfold closeAllInUseConnections. repeat post_step.
  apply post_forM_; [|done]. intros info s' _ Hs'.
  unfold post, shutdown_port. by destruct (heap s' !! conn info).
Qed.

Lemma cleanUp_dated now T s :
  dated T s → post (cleanUpOlderThan now) s (fun _ => dated T) (fun _ => dated T).
Proof.
  intros Hs. unfold cleanUpOlderThan, _cleanUpOlderThan_inlock. repeat post_step.
  eapply post_weaken;
    [apply (post_forM_ _ (fun s' => dated T s' ∧ _lastUsedHosts s' = _lastUsedHosts s)
              (fun _ _ => False)); [|done] | |done].
  - intros [h l] s' Hin [(Hidle & Huse & HL) Hlast]. apply elem_of_map_to_list in Hin.
    unfold cleanUpHost. post_step. apply post_cleanUp_list. cbn [fst snd].
    assert (∀ l', (∀ r, r ∈ l' → r ∈ l) →
              dated T (set_connections <[h := l']>
                         (set_heap (free_list (conn <$> expired now l)) s'))) as Hsub.
    { intros l' Hl'. split; [|done]. intros h' l0 r. cbn.
      destruct (decide (h = h')) as [<-|Hne].
      - rewrite lookup_insert_eq. intros [= <-] Hr. rewrite Hlast.
        destruct Hs as [Hidle0 _]. apply (Hidle0 h l r Hin). by apply Hl'.
      - rewrite lookup_insert_ne by done. apply Hidle. }
    destruct (kept now l) as [|c k] eqn:Hk.
    + post_step. split; [|done]. split; [|done]. intros h' l0 r. cbn.
      destruct (decide (h = h')) as [<-|Hne].
      * by rewrite lookup_delete_eq.
      * rewrite lookup_delete_ne by done. apply Hidle.
    + post_step. split; [|done]. apply Hsub. intros r Hr.
      apply (elem_of_kept now). by rewrite Hk.
  - intros ? s' [Hs' _]. done.
Qed.

Lemma new_pool_dated T tags : dated T (ConnectionPool tags).
Proof.
  split; [|split].
  - intros h l r Hl. cbn in Hl. by rewrite lookup_empty in Hl.
  - intros r Hr. cbn in Hr. by apply elem_of_nil in Hr.
  - cbn. unfold kNeverTooStale, kCleanUpInterval. lia.
Qed.

Lemma post_caught (m : M unit) s (Q : State → Prop) :
  post m s (fun _ => Q) (fun _ => Q) → post (caught m) s (fun _ => Q) (fun _ _ => False).
Proof. unfold post, caught. by destruct (m s). Qed.

Lemma call_dated T c s :
  (- 2 ^ 63 <= T)%Z → dated T s → clocked T [c] →
  post (call c) s (fun _ => dated (clock_after T c)) (fun _ => dated (clock_after T c)).
Proof.
  intros Hmin Hs Hc. destruct c as [env target now timeout|iter now|iter|now|]; cbn in *.
  - destruct Hc as (HT & Hmax & _). post_step.
    eapply post_weaken;
      [apply (post_acquireConnection now (dated now));
         [apply dated_stable; lia | by apply (dated_mono T)] | |].
    + intros it s' Hs'. by post_step.
    + by intros e s' [Hs' _].
  - destruct Hc as (HT & Hmax & _). apply release_dated. by apply (dated_mono T).
  - by apply destroy_dated.
  - by apply cleanUp_dated.
  - by apply closeAll_dated.
Qed.

Lemma clocked_cons T c cs :
  clocked T (c :: cs) → clocked T [c] ∧ clocked (clock_after T c) cs ∧ (T <= clock_after T c)%Z.
Proof. destruct c; cbn; intuition lia. Qed.

(** Along calls whose clock does not run backwards, creation dates stay
    below the clock and below the last-used time of the host. *)
Lemma calls_dated cs T s :
  (- 2 ^ 63 <= T)%Z → dated T s → clocked T cs →
  post (calls cs) s (fun _ s' => ∃ T', dated T' s') (fun _ _ => False).
Proof.
  revert T s. induction cs as [|c cs IH]; intros T s Hmin Hs Hc.
  - cbn. eauto.
  - apply clocked_cons in Hc as (Hc & Hcs & Hle). unfold calls. cbn [forM_]. post_step.
    eapply post_weaken; [apply post_caught, (call_dated T c s Hmin Hs Hc) | | done].
    intros ? s' Hs'. apply (IH (clock_after T c)); [lia|done|done].
Qed.

(** ** The assertion of the stale-host sweep *)

Lemma stale_loop_asserts now cs0 L0 entries :
  (∀ h t l, (h, t) ∈ entries → (t <= L0)%Z → cs0 !! h = Some l → kept now l = []) →
  ∀ s, _connections s = cs0 → _lastCleanUpTime s = L0 →
       forM_ (cleanUpStaleHost now) entries s ≠ Crash InvariantFailure.
Proof.
  induction entries as [|[h t] es IH]; intros Hstale s Hcs HL; [done|].
  cbn [forM_]. unfold bind at 1, cleanUpStaleHost at 1, bind at 1, get. cbn [fst snd].
  rewrite HL, Hcs.
  destruct (Z.leb_spec t L0) as [Ht|Ht].
  - destruct (cs0 !! h) as [l|] eqn:Hl; [|done].
    unfold bind at 1.
    destruct (cleanUp_list_cases now l s) as [(l' & s' & Hc)| ->]; [|done].
    rewrite Hc. apply cleanUp_list_Ret in Hc as [-> ->].
    rewrite (Hstale h t l); [|by left|done|done].
    unfold modify. apply IH; [|done|done].
    intros h' t' l' Hin. apply Hstale. by right.
  - unfold ret. apply IH; [|done|done].
    intros h' t' l' Hin. apply Hstale. by right.
Qed.

(** X12.  In a pool reached from a new pool by calls whose clock does
    not run backwards and stays [kCleanUpInterval] away from
    [Date_t::max()], let [now] be after the time of the last sweep by
    more than [kCleanUpInterval].  Every idle record of a host whose
    last-used time is at most the time of the last sweep has
    [creationDate + kMaxConnectionAge <= now]: the sweep of its list
    leaves nothing, and the [invariant] of the stale-host sweep does not
    fail. *)
Theorem X12_sweep_invariant_holds tags T cs s now :
  (- 2 ^ 63 <= T)%Z →
  clocked T cs →
  calls cs (ConnectionPool tags) = Ret tt s →
  (now > _lastCleanUpTime s + kCleanUpInterval)%Z →
  (∀ h t l,
     _lastUsedHosts s !! h = Some t → (t <= _lastCleanUpTime s)%Z →
     _connections s !! h = Some l →
     (∀ r, r ∈ l → (creationDate r + kMaxConnectionAge <= now)%Z)
     ∧ kept now l = [])
  ∧ _cleanUpStaleHosts_inlock now s ≠ Crash InvariantFailure.
Proof.
  intros Hmin Hclock Hcalls Hdue.
  destruct (post_Ret _ _ _ _ _ _
              (calls_dated cs T _ Hmin (new_pool_dated T tags) Hclock) Hcalls)
    as (T' & Hidle & _ & HL).
  assert (∀ h t l,
            _lastUsedHosts s !! h = Some t → (t <= _lastCleanUpTime s)%Z →
            _connections s !! h = Some l →
            ∀ r, r ∈ l → (- 2 ^ 63 <= creationDate r)%Z
                         ∧ (creationDate r + kMaxConnectionAge <= now)%Z
                         ∧ (creationDate r + kMaxConnectionAge <= kNeverTooStale)%Z)
    as Hold.
  { intros h t l Ht Hstale Hl r Hr.
    destruct (Hidle h l r Hl Hr) as [Hr0 (t' & Ht' & Hr')].
    assert (t' = t) as -> by congruence.
    pose proof interval_exceeds_age. lia. }
  assert (∀ h t l,
            _lastUsedHosts s !! h = Some t → (t <= _lastCleanUpTime s)%Z →
            _connections s !! h = Some l → kept now l = []) as Hnone.
  { intros h t l Ht Hstale Hl.
    destruct (kept now l) as [|r k] eqn:Hk; [done|]. exfalso.
    assert (r ∈ kept now l) as Hr by (rewrite Hk; by left).
    unfold kept in Hr. apply list_elem_of_filter in Hr as [Hkeep Hr].
    destruct (Hold h t l Ht Hstale Hl r Hr) as (H1 & H2 & H3).
    apply keeps_exact in Hkeep; [lia|].
    unfold representable. pose proof age_not_negative. lia. }
  split.
  { intros h t l Ht Hstale Hl. split; [|by eauto].
    intros r Hr. by destruct (Hold h t l Ht Hstale Hl r Hr) as (_ & ? & _). }
  unfold _cleanUpStaleHosts_inlock, bind at 1, get.
  destruct (now >? Date_t_plus (_lastCleanUpTime s) kCleanUpInterval)%Z; [|done].
  unfold bind.
  pose proof (stale_loop_asserts now (_connections s) (_lastCleanUpTime s)
                (map_to_list (_lastUsedHosts s))) as Hloop.
  destruct (forM_ (cleanUpStaleHost now) (map_to_list (_lastUsedHosts s)) s)
    as [| |f|] eqn:Hrun; try done.
  intros [= ->]. eapply Hloop; [|done|done|done].
  intros h t l Hin. apply elem_of_map_to_list in Hin. by eauto.
Qed.

(** The sweep writes [_lastUsedHosts], [_lastCleanUpTime] and the heap:
    the idle lists and the in-use list are never written. *)
Lemma sweep_keeps_lists now s s' :
  _cleanUpStaleHosts_inlock now s = Ret tt s' →
  _connections s' = _connections s ∧ _inUseConnections s' = _inUseConnections s.
Proof.
  intros H.
  refine (post_Ret _ _ (fun _ s' => _connections s' = _connections s
                                   ∧ _inUseConnections s' = _inUseConnections s)
            (fun _ _ => False) _ _ _ H).
  clear H. unfold _cleanUpStaleHosts_inlock. repeat post_step.
  destruct (now >? Date_t_plus (_lastCleanUpTime s) kCleanUpInterval)%Z; [|by post_step].
  post_step.
  eapply post_weaken;
    [apply (post_forM_ _ (fun s' => _connections s' = _connections s
                                    ∧ _inUseConnections s' = _inUseConnections s)
              (fun _ _ => False)); [|done] | |done].
  - intros entry s0 _ Hs0. unfold cleanUpStaleHost. repeat post_step.
    destruct (entry.2 <=? _lastCleanUpTime s0)%Z; [|by post_step].
    destruct (_connections s0 !! entry.1) as [l|]; [|by post_step].
    post_step. apply post_cleanUp_list.
    destruct (kept now l); by post_step.
  - intros ? s0 Hs0. by post_step.
Qed.

(** ** The theorems at the concrete pools *)

(** C1 at [one_idle]: the probe of the idle connection reports it dead,
    or throws. *)
Lemma C1_witness :
  acquireConnection probe_dead hostA 0 1000 one_idle
  = acquire_after_sweep probe_dead hostA 0 1000
      (candidate_destroyed hostA (mkInfo 0 0%Z) [] one_idle)
  ∧ acquireConnection probe_dead hostA 0 1000 one_idle
    = acquireConnection probe_dead hostA 0 1000
        (candidate_destroyed hostA (mkInfo 0 0%Z) [] one_idle)
  ∧ acquireConnection probe_throws hostA 0 1000 one_idle
    = Throw ProbeThrew (candidate_destroyed hostA (mkInfo 0 0%Z) [] one_idle).
Proof.
  assert (_cleanUpStaleHosts_inlock 0 one_idle = Ret tt one_idle) as Hsweep
    by (vm_compute; reflexivity).
  assert (_connections one_idle !! hostA = Some [mkInfo 0 0%Z]) as Hl
    by (vm_compute; reflexivity).
  assert (_cleanUpOlderThan_inlock_list 0 [mkInfo 0 0%Z] one_idle
          = Ret [mkInfo 0 0%Z] one_idle) as Hc by (vm_compute; reflexivity).
  assert (heap one_idle !! 0 = Some (connA 1000)) as Hx by (vm_compute; reflexivity).
  assert (representable (0 + kCleanUpInterval)) as Hrep
    by (unfold representable, kCleanUpInterval, kNeverTooStale; lia).
  split; [|split].
  - destruct (C1_probe_failures probe_dead hostA 0 1000 one_idle) as [H _].
    destruct (H one_idle _ _ _ one_idle _ Hsweep Hl Hc Hx) as [Hdead _].
    destruct (Hdead eq_refl) as [Hnext _]. exact Hnext.
  - destruct (C1_probe_failures probe_dead hostA 0 1000 one_idle) as [H _].
    destruct (H one_idle _ _ _ one_idle _ Hsweep Hl Hc Hx) as [Hdead _].
    destruct (Hdead eq_refl) as [_ Hagain]. exact (Hagain Hrep).
  - destruct (C1_probe_failures probe_throws hostA 0 1000 one_idle) as [H _].
    destruct (H one_idle _ _ _ one_idle _ Hsweep Hl Hc Hx) as [_ Hthrows].
    exact (Hthrows eq_refl).
Defined.

(** C7 at a new pool: a handle is constructed, [done] is called, the
    handle is destroyed. *)
Lemma C7_witness :
  ∃ p' s2,
    ConnectionPtr_ctor network_up hostA 0 1000 (ConnectionPool 0)
    = Ret (mkPtr this_pool 0) one_in_use
    ∧ done (mkPtr this_pool 0) 10 one_in_use = Ret p' s2
    ∧ _pool p' = NULL
    ∧ ConnectionPtr_dtor p' s2 = Ret tt s2.
Proof.
  assert (ConnectionPtr_ctor network_up hostA 0 1000 (ConnectionPool 0)
          = Ret (mkPtr this_pool 0) one_in_use) as Hctor by (vm_compute; reflexivity).
  assert (∃ p' s2, done (mkPtr this_pool 0) 10 one_in_use = Ret p' s2)
    as (p' & s2 & Hdone) by (do 2 eexists; vm_compute; reflexivity).
  destruct (C7_ConnectionPtr_release_xor_destroy network_up hostA 0 1000 10
              (ConnectionPool 0)) as (_ & _ & H).
  destruct (H _ _ Hctor _ _ Hdone) as [Hnull Hinert].
  exists p', s2. split; [exact Hctor|]. split; [exact Hdone|].
  split; [exact Hnull | apply Hinert].
Defined.

(** C4 at [one_expired], where [hostA] has no idle list, and at
    [one_taken], where its idle list is empty. *)
Lemma C4_witness :
  acquireConnection network_up hostA 30000 1000 one_expired
  = dial network_up hostA 30000 1000 one_expired
  ∧ acquireConnection network_up hostA 0 1000 one_taken
    = dial network_up hostA 0 1000 (marked_never_stale hostA one_taken).
Proof.
  split.
  - apply (C4_acquire_without_idle_list network_up hostA 30000 1000 one_expired one_expired).
    + vm_compute. reflexivity.
    + vm_compute. reflexivity.
  - eapply (C4_acquire_without_idle_list network_up hostA 0 1000 one_taken one_taken).
    + vm_compute. reflexivity.
    + vm_compute. reflexivity.
    + reflexivity.
Defined.

(** C6 at [one_idle] and time 30000, when the idle record has expired,
    and at [back_in_time] and time 10, before the idle record was made. *)
Lemma C6_witness :
  (∃ s', cleanUpOlderThan 30000 one_idle = Ret tt s'
       ∧ heap s' = free_list [0] (heap one_idle)
       ∧ _connections s' !! hostA = None)
  ∧ (∃ s', cleanUpOlderThan 10 back_in_time = Ret tt s'
         ∧ heap s' = heap back_in_time
         ∧ _connections s' !! hostA = Some [mkInfo 0 290000%Z]).
Proof.
  assert (all_idle one_idle = [mkInfo 0 0%Z]) as Hidle by (vm_compute; reflexivity).
  assert (all_idle back_in_time = [mkInfo 0 290000%Z]) as Hback by (vm_compute; reflexivity).
  assert (old_at 30000 [mkInfo 0 0%Z] = [mkInfo 0 0%Z]) as Hold by (vm_compute; reflexivity).
  assert (old_at 10 [mkInfo 0 290000%Z] = []) as Hexp by (vm_compute; reflexivity).
  assert (young_at 30000 [mkInfo 0 0%Z] = []) as Hyoung by (vm_compute; reflexivity).
  assert (_connections one_idle !! hostA = Some [mkInfo 0 0%Z]) as HA
    by (vm_compute; reflexivity).
  assert (_connections back_in_time !! hostA = Some [mkInfo 0 290000%Z]) as HB
    by (vm_compute; reflexivity).
  split.
  - destruct (C6_cleanUpOlderThan 30000 one_idle) as (s' & Hrun & Hheap & _ & Hc & _).
    + rewrite Hidle. intros r Hr. apply list_elem_of_singleton in Hr as ->.
      unfold representable, kMaxConnectionAge, kNeverTooStale. cbn. lia.
    + rewrite Hidle, Hold. split; [apply NoDup_singleton|]. intros p Hp.
      apply list_elem_of_singleton in Hp as ->. eexists. vm_compute. reflexivity.
    + exists s'. split; [exact Hrun|]. rewrite Hidle, Hold in Hheap. split; [exact Hheap|].
      rewrite Hc, HA, Hyoung. reflexivity.
  - destruct (C6_cleanUpOlderThan 10 back_in_time)
      as (s' & Hrun & _ & _ & _ & _ & _ & _ & He).
    + rewrite Hback. intros r Hr. apply list_elem_of_singleton in Hr as ->.
      unfold representable, kMaxConnectionAge, kNeverTooStale. cbn. lia.
    + rewrite Hback, Hexp. split; [constructor|].
      intros p Hp. exfalso. exact (proj1 (elem_of_nil p) Hp).
    + destruct He as [Hheap Hc].
      * rewrite Hback. intros r Hr. apply list_elem_of_singleton in Hr as ->. cbn. lia.
      * exists s'. split; [exact Hrun|]. split; [exact Hheap|]. rewrite Hc, HB. reflexivity.
Defined.



(** * Further properties *)

(** ** The dialing code, case by case *)

Lemma first_free_here hp fuel p : hp !! p = None → first_free hp fuel p = p.
Proof. intros H. destruct fuel; [done|]. cbn. by rewrite H. Qed.

(** [operator new] returns an address that holds no object. *)
Lemma first_free_None hp fuel p :
  size (filter (fun kv => p ≤ kv.1) hp) ≤ fuel → hp !! first_free hp fuel p = None.
Proof.
  revert p. induction fuel as [|fuel IH]; intros p Hsize; cbn.
  - destruct (hp !! p) as [x|] eqn:Hp; [|done]. exfalso.
    assert (filter (fun kv => p ≤ kv.1) hp !! p = Some x) as Hin
      by by apply map_lookup_filter_Some.
    assert (filter (fun kv => p ≤ kv.1) hp = ∅) as Hempty
      by (apply map_size_empty_iff; lia).
    rewrite Hempty in Hin. by rewrite lookup_empty in Hin.
  - destruct (hp !! p) as [x|] eqn:Hp; [|done]. apply IH.
    assert (filter (fun kv => p ≤ kv.1) hp
            = <[p := x]> (filter (fun kv => S p ≤ kv.1) hp)) as Heq.
    { apply map_eq. intros i. apply option_eq. intros y.
      destruct (decide (i = p)) as [->|Hne].
      - rewrite lookup_insert_eq, map_lookup_filter_Some. cbn. rewrite Hp.
        split; [by intros [? _] | intros ?; split; [done | lia]].
      - rewrite lookup_insert_ne by done. rewrite !map_lookup_filter_Some. cbn.
        split; intros [? ?]; (split; [done|lia]). }
    rewrite Heq in Hsize. rewrite map_size_insert_None in Hsize; [lia|].
    apply map_lookup_filter_None. right. intros y _. cbn. lia.
Qed.

Lemma operator_new_None env s : heap s !! operator_new env s = None.
Proof.
  assert (heap s !! first_free (heap s) (size (heap s)) (nextAddr s) = None) as Hfree.
  { apply first_free_None. apply map_subseteq_size, map_filter_subseteq. }
  unfold operator_new. destruct (newAddress env) as [q|]; [|done].
  by destruct (heap s !! q) eqn:Hq.
Qed.

Lemma dial_cases env target now timeout s :
  dial env target now timeout s
  = if negb (connect env target).1 then
      Throw (ConnectFailed target (connect env target).2) (dial_failed env s)
    else if isAuthEnabled env && negb (isInternalAuthSet env) then
      Throw AuthenticationFailed (dial_failed env s)
    else if isAuthEnabled env && negb (authSucceeds env) then
      Throw AuthRejected (dial_failed env s)
    else Ret (operator_new env s) (dial_succeeded env target now timeout s).
Proof.
  unfold dial, bind at 1, new_conn. cbv zeta.
  set (p := operator_new env s). set (n := Nat.max (nextAddr s) (S p)).
  unfold bind at 1, setSoTimeout.
  cbn [heap set_heap set_nextAddr]. rewrite lookup_insert_eq.
  destruct (negb (connect env target).1).
  { unfold unwind, bind, delete_conn, throw. cbn.
    rewrite lookup_insert_eq. unfold dial_failed, set_nextAddr, set_heap. cbn.
    fold p. fold n. by rewrite !delete_insert_eq. }
  unfold bind at 1, get. unfold bind at 1, modify at 1.
  assert (∀ e (x y z : DBClientConnection) (k : unit → M addr),
            bind (unwind p e) k
              (set_heap <[p := x]>
                 (set_heap (fun _ => <[p := y]> (<[p := z]> (heap s)))
                    (set_nextAddr n (set_heap <[p := z]> s))))
            = Throw e (dial_failed env s)) as Hfail.
  { intros e x y z k. unfold bind, unwind, bind, delete_conn, throw. cbn.
    rewrite lookup_insert_eq. unfold dial_failed, set_nextAddr, set_heap. cbn.
    fold p. fold n. by rewrite !delete_insert_eq. }
  destruct (isAuthEnabled env); cbn [andb].
  - destruct (negb (isInternalAuthSet env)); [apply Hfail|].
    destruct (negb (authSucceeds env)); [apply Hfail|].
    unfold bind, ret, modify. cbn.
    unfold dial_succeeded, dialed, set_inUseConnections, set_nextAddr, set_heap. cbn.
    fold p. fold n. by rewrite !insert_insert_eq.
  - unfold bind, ret, modify. cbn.
    unfold dial_succeeded, dialed, set_inUseConnections, set_nextAddr, set_heap. cbn.
    fold p. fold n. by rewrite !insert_insert_eq.
Qed.

(** ** The loop of [acquireConnection], turn by turn *)

Lemma loop_turn_alive again env target now timeout s l c rest s2 x :
  _connections s !! target = Some l →
  _cleanUpOlderThan_inlock_list now l s = Ret (c :: rest) s2 →
  heap s2 !! conn c = Some x →
  isStillConnected env (conn c) = StillConnected →
  loop_turn again env target now timeout s
  = Ret (Some (conn c)) (candidate_taken target c rest x timeout s2).
Proof.
  intros Hl Hc Hx Halive. unfold loop_turn, bind at 1, get. rewrite Hl.
  unfold bind at 1. rewrite Hc.
  unfold bind at 1, modify at 1. unfold bind at 1, modify at 1.
  unfold bind at 1, modify at 1. rewrite set_connections_twice.
  unfold bind at 1, probe_or_destroy, probe. cbn [heap set_inUseConnections set_connections].
  rewrite Hx, Halive. unfold bind, setSoTimeout, ret. cbn. rewrite Hx. done.
Qed.

Lemma loop_turn_freed again env target now timeout s l c rest s2 :
  _connections s !! target = Some l →
  _cleanUpOlderThan_inlock_list now l s = Ret (c :: rest) s2 →
  heap s2 !! conn c = None →
  loop_turn again env target now timeout s = Crash UseOfFreed.
Proof.
  intros Hl Hc Hx. unfold loop_turn, bind at 1, get. rewrite Hl.
  unfold bind at 1. rewrite Hc.
  unfold bind at 1, modify at 1. unfold bind at 1, modify at 1.
  unfold bind at 1, modify at 1.
  unfold bind at 1, probe_or_destroy, probe. cbn [heap set_inUseConnections set_connections].
  by rewrite Hx.
Qed.

(** A rule for the loop: [I] holds of the pool whenever a turn starts. *)
Lemma loop_rule now env target timeout (I : State → Prop)
    (Q : option addr → State → Prop) (E : Exception → State → Prop) :
  (∀ s, I s → _connections s !! target = None → Q None s) →
  (∀ s l, I s → _connections s !! target = Some l → kept now l = [] →
     Q None (marked_never_stale target
               (set_heap (free_list (conn <$> expired now l)) s))) →
  (∀ s l c rest x,
     I s → _connections s !! target = Some l → kept now l = c :: rest →
     free_list (conn <$> expired now l) (heap s) !! conn c = Some x →
     match isStillConnected env (conn c) with
     | StillConnected =>
         Q (Some (conn c))
           (candidate_taken target c rest x timeout
              (set_heap (free_list (conn <$> expired now l)) s))
     | NotConnected =>
         I (candidate_destroyed target c rest
              (set_heap (free_list (conn <$> expired now l)) s))
     | ProbeThrows =>
         E ProbeThrew
           (candidate_destroyed target c rest
              (set_heap (free_list (conn <$> expired now l)) s))
     end) →
  ∀ n s, I s → length (idle_of target s) < n →
         post (acquire_loop n env target now timeout) s Q E.
Proof.
  intros Habsent Hempty Hcand. induction n as [|n IH]; intros s Hs Hlen; [lia|].
  unfold post. rewrite acquire_loop_S.
  destruct (_connections s !! target) as [l|] eqn:Hl.
  2: { rewrite (loop_turn_absent _ _ _ _ _ _ Hl). by apply Habsent. }
  rewrite (idle_of_lookup _ _ _ Hl) in Hlen.
  destruct (cleanUp_list_cases now l s) as [(l' & s2 & Hc)|Hc].
  2: { unfold loop_turn, bind at 1, get. rewrite Hl. unfold bind at 1. by rewrite Hc. }
  destruct (cleanUp_list_Ret _ _ _ _ _ Hc) as [-> ->].
  pose proof (length_filter (keeps now) l) as Hk. fold (kept now l) in Hk.
  destruct (kept now l) as [|c rest] eqn:Hkept.
  { rewrite (loop_turn_empty _ _ _ _ _ _ _ _ Hl Hc). by apply (Hempty s l). }
  set (s2 := set_heap (free_list (conn <$> expired now l)) s) in *.
  destruct (heap s2 !! conn c) as [x|] eqn:Hx.
  2: { by rewrite (loop_turn_freed _ _ _ _ _ _ _ _ _ _ Hl Hc Hx). }
  specialize (Hcand s l c rest x Hs Hl Hkept Hx). fold s2 in Hcand.
  destruct (isStillConnected env (conn c)) eqn:Hprobe.
  - by rewrite (loop_turn_alive _ _ _ _ _ _ _ _ _ _ _ Hl Hc Hx Hprobe).
  - rewrite (loop_turn_dead _ _ _ _ _ _ _ _ _ _ _ Hl Hc Hx Hprobe).
    apply IH; [done|]. unfold idle_of. cbn. rewrite lookup_insert_eq. cbn in *. lia.
  - by rewrite (loop_turn_throws _ _ _ _ _ _ _ _ _ _ _ Hl Hc Hx Hprobe).
Qed.

(** ** What the stale-host sweep leaves alone *)

Lemma free_list_subseteq ps (hp : gmap nat DBClientConnection) : free_list ps hp ⊆ hp.
Proof.
  revert hp. induction ps as [|p ps IH]; intros hp; [done|].
  unfold free_list in *. cbn [foldl]. etrans; [apply IH | apply delete_subseteq].
Qed.

Lemma post_sweep_frame now s :
  post (_cleanUpStaleHosts_inlock now) s
       (fun _ s' => _connections s' = _connections s
                    ∧ _inUseConnections s' = _inUseConnections s
                    ∧ nextAddr s' = nextAddr s
                    ∧ _messagingPortTags s' = _messagingPortTags s
                    ∧ heap s' ⊆ heap s)
       (fun _ _ => False).
Proof.
  unfold _cleanUpStaleHosts_inlock. repeat post_step.
  destruct (now >? Date_t_plus (_lastCleanUpTime s) kCleanUpInterval)%Z; [|by post_step].
  post_step.
  eapply post_weaken;
    [apply (post_forM_ _ (fun s' => _connections s' = _connections s
                                    ∧ _inUseConnections s' = _inUseConnections s
                                    ∧ nextAddr s' = nextAddr s
                                    ∧ _messagingPortTags s' = _messagingPortTags s
                                    ∧ heap s' ⊆ heap s)
              (fun _ _ => False)); [|done] | |done].
  - intros entry s0 _ (H1 & H2 & H3 & H4 & H5). unfold cleanUpStaleHost. repeat post_step.
    destruct (entry.2 <=? _lastCleanUpTime s0)%Z; [|by post_step].
    destruct (_connections s0 !! entry.1) as [l|]; [|by post_step].
    post_step. apply post_cleanUp_list.
    destruct (kept now l); [|by post_step].
    post_step. cbn. repeat split; try done.
    etrans; [apply free_list_subseteq | done].
  - intros ? s0 Hs0. by post_step.
Qed.


(** ** What [acquireConnection] returns and what it throws *)

Lemma idle_of_insert target h (l : ConnectionList) s :
  idle_of h (set_connections <[target := l]> s)
  = if decide (target = h) then l else idle_of h s.
Proof.
  unfold idle_of. cbn. case_decide as Hh.
  - subst. by rewrite lookup_insert_eq.
  - by rewrite lookup_insert_ne.
Qed.

Lemma acquire_outcome env target now timeout s :
  post (acquireConnection env target now timeout) s
       (fun it s' => acquired env target now timeout s it s')
       (fun e s' => shrunk s s' ∧ thrown_for env target now s e).
Proof.
  unfold acquireConnection. post_step.
  eapply post_weaken; [apply post_sweep_frame | | done].
  intros ? s1 (F1 & F2 & F3 & F4 & F5).
  assert (shrunk s s1 ∧ nextAddr s1 = nextAddr s) as Hs1.
  { repeat split; try done; [lia|]. intros h. unfold idle_of. by rewrite F1. }
  clear F1 F2 F3 F4 F5. repeat post_step.
  eapply post_weaken;
    [apply (loop_rule now env target timeout
              (fun s2 => shrunk s s2 ∧ nextAddr s2 = nextAddr s)
              (fun r s2 => match r with
                           | Some it => acquired env target now timeout s it s2
                           | None => shrunk s s2 ∧ nextAddr s2 = nextAddr s
                           end)
              (fun e s2 => shrunk s s2 ∧ thrown_for env target now s e));
       [| | | exact Hs1 | lia] | |done].
  - by intros s2 Hs2 _.
  - intros s2 l [(H1 & H2 & H3 & H4 & H5) H6] Hl Hk. repeat split; try done.
    + cbn. etrans; [apply free_list_subseteq | done].
    + intros h. specialize (H5 h). unfold marked_never_stale.
      change (idle_of h (set_lastUsedHosts ?f ?s)) with (idle_of h s).
      rewrite idle_of_insert. case_decide; [apply sublist_nil_l|]. done.
  - intros s2 l c rest x [(H1 & H2 & H3 & H4 & H5) H6] Hl Hk Hx.
    assert (c :: rest `sublist_of` idle_of target s) as Hsub.
    { rewrite <- Hk. etrans; [apply sublist_filter|].
      rewrite <- (idle_of_lookup _ _ _ Hl). apply H5. }
    assert (shrunk s (candidate_destroyed target c rest
                        (set_heap (free_list (conn <$> expired now l)) s2))) as Hd.
    { repeat split; try done.
      - cbn. etrans; [apply delete_subseteq|]. etrans; [apply free_list_subseteq | done].
      - intros h. unfold candidate_destroyed.
        change (idle_of h (set_heap ?f ?s)) with (idle_of h s).
        rewrite idle_of_insert. case_decide as Hh.
        + subst h. etrans; [|exact Hsub]. by apply sublist_cons.
        + apply H5. }
    assert (c ∈ idle_of target s ∧ keeps now c) as [Hc1 Hc2].
    { split.
      - eapply elem_of_sublist; [|exact Hsub]. by left.
      - assert (c ∈ kept now l) as Hin by (rewrite Hk; by left).
        unfold kept in Hin. by apply list_elem_of_filter in Hin as [? _]. }
    destruct (isStillConnected env (conn c)) eqn:Hprobe.
    + exists c, (with_timeout timeout x). cbn. rewrite H1, H6.
      split; [done|]. split; [done|]. split; [apply lookup_insert_eq|].
      split; [done|]. destruct Hd as (_ & _ & _ & D4 & D5).
      split; [exact D5|]. split; [rewrite delete_insert_eq; exact D4|].
      left. split; [done|]. split; [done|]. split; [done|].
      exists x. split; [|done].
      eapply lookup_weaken; [exact Hx|]. etrans; [apply free_list_subseteq | done].
    + split; [exact Hd | exact H6].
    + split; [exact Hd|]. cbn. by exists c.
  - intros [it|] s2 Hs2; [by post_step|].
    destruct Hs2 as [(H1 & H2 & H3 & H4 & H5) H6].
    unfold post. rewrite dial_cases.
    assert (shrunk s (dial_failed env s2)) as Hfail.
    { repeat split; try done.
      - cbn. lia.
      - cbn. etrans; [apply delete_subseteq | done]. }
    assert (newAddress env = None → heap s !! nextAddr s = None →
            operator_new env s2 = nextAddr s) as Hnew.
    { intros Hnone Hfree. unfold operator_new. rewrite Hnone, H6.
      apply first_free_here. by eapply lookup_weaken_None. }
    destruct (connect env target) as [ok errmsg] eqn:Hconnect. cbn [fst snd].
    destruct ok; cbn [negb]; [|by split; [exact Hfail | split]].
    destruct (isAuthEnabled env) eqn:Hauth; cbn [andb].
    + destruct (isInternalAuthSet env) eqn:Hset; cbn [negb];
        [|split; [exact Hfail | cbn; by rewrite Hconnect, Hauth, Hset]].
      destruct (authSucceeds env) eqn:Hok; cbn [negb];
        [|split; [exact Hfail | cbn; by rewrite Hconnect, Hauth, Hset, Hok]].
      exists (mkInfo (operator_new env s2) now), (dialed env target timeout s2). cbn.
      rewrite H1, H6. split; [done|]. split; [done|].
      split; [apply lookup_insert_eq|]. split; [done|].
      destruct Hfail as (_ & _ & _ & D4 & D5).
      split; [exact D5|]. split; [rewrite delete_insert_eq; exact D4|]. right.
      split; [done|]. split; [unfold dialed; by rewrite H3|].
      split; [done|]. split; [exact Hnew|].
      exists (heap s2). split; [done|]. split; [apply operator_new_None | done].
    + exists (mkInfo (operator_new env s2) now), (dialed env target timeout s2). cbn.
      rewrite H1, H6. split; [done|]. split; [done|].
      split; [apply lookup_insert_eq|]. split; [done|].
      destruct Hfail as (_ & _ & _ & D4 & D5).
      split; [exact D5|]. split; [rewrite delete_insert_eq; exact D4|]. right.
      split; [done|]. split; [unfold dialed; by rewrite H3|].
      split; [done|]. split; [exact Hnew|].
      exists (heap s2). split; [done|]. split; [apply operator_new_None | done].
Qed.


(** ** releaseConnection *)

Lemma release_pooled iter now info c s :
  find_iter iter (_inUseConnections s) = Some info →
  heap s !! conn info = Some c →
  keeps now info →
  deletable (conn <$> expired now (idle_of (getServerHostAndPort c) s)) (heap s) →
  conn info ∉ conn <$> expired now (idle_of (getServerHostAndPort c) s) →
  releaseConnection iter now s = Ret tt (pooled iter now info (getServerHostAndPort c) s).
Proof.
  intros Hf Hc Hyoung Hdel Hnot. unfold keeps in Hyoung.
  unfold releaseConnection, bind at 1, get. rewrite Hf, Hyoung, Hc. cbn [negb].
  unfold bind at 1. rewrite (cleanUp_list_ok _ _ _ Hdel).
  unfold bind, modify, get. cbn.
  rewrite lookup_free_list, decide_False by done. by rewrite Hc.
Qed.

(** X11.  [releaseConnection(iter, now)] on a record [info] in use whose
    connection is live and whose expiration date is a [Date_t].  When
    [creationDate + kMaxConnectionAge <= now] the record is destroyed
    and no idle list changes.  Otherwise, let [l] be the idle list of
    the host of the connection, empty when there is none, the
    expiration dates of its records being values of [Date_t] and its
    expired records deletable, [info] not one of them: the connections of
    the expired records of [l] are deleted, the list of the host is
    [info] followed by the other records of [l] in their order, [info]
    has left the in-use list, and the host is last used at [now]. *)
Theorem X11_releaseConnection now info c l1 l2 l s :
  _inUseConnections s = l1 ++ info :: l2 →
  (∀ r, r ∈ l1 → conn r ≠ conn info) →
  heap s !! conn info = Some c →
  representable (creationDate info + kMaxConnectionAge) →
  l = default [] (_connections s !! getServerHostAndPort c) →
  ((creationDate info + kMaxConnectionAge <= now)%Z →
     ∃ s', releaseConnection (conn info) now s = Ret tt s'
         ∧ heap s' = delete (conn info) (heap s)
         ∧ _inUseConnections s' = l1 ++ l2
         ∧ _connections s' = _connections s
         ∧ _lastUsedHosts s' = _lastUsedHosts s
         ∧ _lastCleanUpTime s' = _lastCleanUpTime s)
  ∧ ((now < creationDate info + kMaxConnectionAge)%Z →
     (∀ r, r ∈ l → representable (creationDate r + kMaxConnectionAge)) →
     deletable (conn <$> old_at now l) (heap s) →
     conn info ∉ conn <$> old_at now l →
     ∃ s', releaseConnection (conn info) now s = Ret tt s'
         ∧ heap s' = free_list (conn <$> old_at now l) (heap s)
         ∧ _inUseConnections s' = l1 ++ l2
         ∧ _connections s'
           = <[getServerHostAndPort c := info :: young_at now l]> (_connections s)
         ∧ _lastUsedHosts s' = <[getServerHostAndPort c := now]> (_lastUsedHosts s)
         ∧ _lastCleanUpTime s' = _lastCleanUpTime s).
Proof.
  intros Huse Hl1 Hc Hrep ->.
  pose proof (find_iter_app l1 info l2 Hl1) as Hf. rewrite <- Huse in Hf.
  pose proof (erase_app l1 info l2 Hl1) as He. rewrite <- Huse in He.
  split.
  - intros Hold. rewrite <- (Date_t_plus_exact _ _ Hrep) in Hold.
    apply shouldKeep_false in Hold.
    unfold releaseConnection, bind at 1, get. rewrite Hf, Hold. cbn [negb].
    rewrite (destroy_inUse_ok _ _ _ _ Hf Hc).
    eexists; split; [done|]. cbn. by rewrite He.
  - intros Hyoung Hreps Hdel Hnot. apply (keeps_exact now info Hrep) in Hyoung.
    destruct (kept_exact now _ Hreps) as [Hk Hx].
    change (default [] (_connections s !! getServerHostAndPort c))
      with (idle_of (getServerHostAndPort c) s) in *.
    rewrite <- Hx in Hdel, Hnot |- *. rewrite <- Hk.
    rewrite (release_pooled _ _ _ _ _ Hf Hc Hyoung Hdel Hnot).
    eexists; split; [done|]. cbn -[kept expired]. by rewrite He.
Qed.

(** ** A released connection is the next one handed out *)

Lemma acquire_front_alive env target now timeout s l c rest x :
  (now <= Date_t_plus (_lastCleanUpTime s) kCleanUpInterval)%Z →
  _connections s !! target = Some l →
  kept now l = c :: rest →
  deletable (conn <$> expired now l) (heap s) →
  free_list (conn <$> expired now l) (heap s) !! conn c = Some x →
  isStillConnected env (conn c) = StillConnected →
  acquireConnection env target now timeout s
  = Ret (conn c)
        (candidate_taken target c rest x timeout
           (set_heap (free_list (conn <$> expired now l)) s)).
Proof.
  intros Hdue Hl Hk Hdel Hx Halive.
  rewrite (acquireConnection_after_sweep _ _ _ _ _ _ (sweep_not_due _ _ Hdue)).
  unfold acquire_after_sweep, bind at 1, get. unfold bind. rewrite acquire_loop_S.
  pose proof (cleanUp_list_ok _ _ _ Hdel) as Hc. rewrite Hk in Hc.
  by rewrite (loop_turn_alive _ _ _ _ _ _ _ _ _ _ _ Hl Hc Hx Halive).
Qed.

Lemma kept_cons_young now c l : keeps now c → kept now (c :: l) = c :: kept now l.
Proof. intros H. by destruct (filter_age_keep now c l H). Qed.

Lemma expired_cons_young now c l : keeps now c → expired now (c :: l) = expired now l.
Proof. intros H. by destruct (filter_age_keep now c l H). Qed.

(** X4.  A record [info] in use, whose connection is live and which the
    age test keeps at [now] and at [now2], is released at [now], and a
    connection to its host is acquired at [now2], when the sweep of
    stale hosts is not due; the expired idle records of the host can be
    deleted, [info] is not one of them, and the probe of the connection
    succeeds.  The connection handed out is the released one: it is in
    use again, with the timeout asked for, no connection was made, and
    the records that were idle before and are not expired are idle
    behind it. *)
Theorem X4_release_then_acquire env now now2 timeout info c l1 l2 l s :
  _inUseConnections s = l1 ++ info :: l2 →
  (∀ r, r ∈ l1 → conn r ≠ conn info) →
  heap s !! conn info = Some c →
  l = default [] (_connections s !! getServerHostAndPort c) →
  keeps now info → keeps now2 info →
  deletable (conn <$> (expired now l ++ expired now2 (kept now l))) (heap s) →
  conn info ∉ conn <$> (expired now l ++ expired now2 (kept now l)) →
  (now2 <= Date_t_plus (_lastCleanUpTime s) kCleanUpInterval)%Z →
  isStillConnected env (conn info) = StillConnected →
  ∃ s', (let! _ := releaseConnection (conn info) now in
         acquireConnection env (getServerHostAndPort c) now2 timeout) s
        = Ret (conn info) s'
      ∧ _inUseConnections s' = info :: l1 ++ l2
      ∧ _connections s' !! getServerHostAndPort c = Some (kept now2 (kept now l))
      ∧ heap s' = <[conn info := with_timeout timeout c]>
                    (free_list (conn <$> (expired now l ++ expired now2 (kept now l)))
                       (heap s))
      ∧ _lastUsedHosts s' = <[getServerHostAndPort c := now]> (_lastUsedHosts s)
      ∧ nextAddr s' = nextAddr s.
Proof.
  intros Huse Hl1 Hc -> Hy1 Hy2 Hdel Hnot Hdue Halive.
  pose proof (find_iter_app l1 info l2 Hl1) as Hf. rewrite <- Huse in Hf.
  pose proof (erase_app l1 info l2 Hl1) as He. rewrite <- Huse in He.
  set (host := getServerHostAndPort c) in *.
  change (default [] (_connections s !! host)) with (idle_of host s) in *.
  set (l := idle_of host s) in *.
  rewrite fmap_app in Hdel, Hnot.
  apply deletable_app in Hdel as [Hdel1 Hdel2].
  apply not_elem_of_app in Hnot as [Hnot1 Hnot2].
  unfold bind. rewrite (release_pooled _ _ _ _ _ Hf Hc Hy1 Hdel1 Hnot1).
  fold host. fold l.
  set (s1 := pooled (conn info) now info host s).
  assert (_connections s1 !! host = Some (info :: kept now l)) as Hl1'
    by (cbn; apply lookup_insert_eq).
  assert (heap s1 = free_list (conn <$> expired now l) (heap s)) as Hheap1 by done.
  rewrite (acquire_front_alive env host now2 timeout s1 (info :: kept now l)
             info (kept now2 (kept now l)) c).
  - rewrite (expired_cons_young _ _ _ Hy2).
    eexists. split; [reflexivity|].
    split; [cbn -[kept expired free_list]; by rewrite He|].
    split; [cbn -[kept expired free_list]; by rewrite lookup_insert_eq|].
    split; [|done].
    cbn -[kept expired free_list]. by rewrite fmap_app, free_list_app.
  - done.
  - done.
  - by apply kept_cons_young.
  - rewrite (expired_cons_young _ _ _ Hy2), Hheap1. done.
  - rewrite (expired_cons_young _ _ _ Hy2), Hheap1.
    rewrite !lookup_free_list, !decide_False by done. done.
  - done.
Qed.

(** ** acquireConnection, as its caller sees it *)

(** X1.  When [acquireConnection(target, now, timeout)] returns, the
    record returned is the new front of the in-use list, its connection
    is alive and has the timeout asked for.  The record either was idle
    for the target and not expired, and then no connection was made: the
    connection is the one the record had; or it is a new one, created at
    [now], connected to the target and tagged with the tags of the pool,
    in a block that held no object, which is [nextAddr] when the
    allocator reuses no block.  The idle lists have lost records at
    most, and apart from the connection returned the heap has lost
    objects at most. *)
Theorem X1_acquire_returns env target now timeout s it s' :
  acquireConnection env target now timeout s = Ret it s' →
  ∃ info x,
    _inUseConnections s' = info :: _inUseConnections s
    ∧ conn info = it
    ∧ heap s' !! it = Some x
    ∧ soTimeoutMillis x = timeout
    ∧ (∀ h, idle_of h s' `sublist_of` idle_of h s)
    ∧ delete it (heap s') ⊆ heap s
    ∧ ((info ∈ idle_of target s ∧ keeps now info ∧ nextAddr s' = nextAddr s
        ∧ ∃ x0, heap s !! it = Some x0
                ∧ x = mkConn (getServerHostAndPort x0) timeout (portTag x0)
                             (portShutdown x0))
       ∨ (creationDate info = now
          ∧ getServerHostAndPort x = target
          ∧ portTag x = Z.lor (newPortTag env) (_messagingPortTags s)
          ∧ portShutdown x = false
          ∧ nextAddr s' = Nat.max (nextAddr s) (S it)
          ∧ (newAddress env = None → heap s !! nextAddr s = None →
             it = nextAddr s ∧ nextAddr s' = S (nextAddr s))
          ∧ ∃ hp, hp ⊆ heap s ∧ hp !! it = None ∧ heap s' = <[it := x]> hp)).
Proof.
  intros Hr.
  destruct (post_Ret _ _ _ _ _ _ (acquire_outcome env target now timeout s) Hr)
    as (info & x & H1 & H2 & H3 & H4 & H5 & H6 & H7).
  exists info, x. repeat (split; [assumption|]).
  destruct H7 as [H7|(H7 & -> & H8 & H9 & H10)]; [by left|right].
  repeat (split; [done|]). split; [|done]. intros Hnone Hfree.
  specialize (H9 Hnone Hfree). split; [done|]. rewrite H8, H9. lia.
Qed.

(** X2.  When [acquireConnection(target, now, timeout)] throws, no record
    was added to the in-use list, no object was added to the heap, and
    the idle lists have lost records at most.  The exception tells the
    cause: the connect to the target failed with the message carried,
    or authentication is enabled and the internal credentials are
    missing or were rejected, or the probe of an idle record of the
    target that was not expired threw. *)
Theorem X2_acquire_throws env target now timeout s e s' :
  acquireConnection env target now timeout s = Throw e s' →
  _inUseConnections s' = _inUseConnections s
  ∧ heap s' ⊆ heap s
  ∧ (∀ h, idle_of h s' `sublist_of` idle_of h s)
  ∧ _messagingPortTags s' = _messagingPortTags s
  ∧ thrown_for env target now s e.
Proof.
  intros Ht.
  destruct (post_Throw _ _ _ _ _ _ (acquire_outcome env target now timeout s) Ht)
    as [(H1 & H2 & H3 & H4 & H5) H6].
  done.
Qed.

(** X3.  The sweep of stale hosts is not due by the test of the code,
    the expired records of the idle list of the target can be deleted,
    and the first record [c] of the list that is not expired has a live
    connection, which answers the probe.  Then [acquireConnection] hands
    out [c] without making a connection: the expired records of the list
    are deleted, the records behind [c] that are not expired stay idle
    in their order, the other hosts' lists and the last-used times are
    as before. *)
Theorem X3_acquire_reuses_newest_idle env target now timeout s l c rest x :
  (now <= Date_t_plus (_lastCleanUpTime s) kCleanUpInterval)%Z →
  _connections s !! target = Some l →
  kept now l = c :: rest →
  deletable (conn <$> expired now l) (heap s) →
  conn c ∉ conn <$> expired now l →
  heap s !! conn c = Some x →
  isStillConnected env (conn c) = StillConnected →
  ∃ s', acquireConnection env target now timeout s = Ret (conn c) s'
      ∧ _inUseConnections s' = c :: _inUseConnections s
      ∧ _connections s' = <[target := rest]> (_connections s)
      ∧ heap s' = <[conn c := with_timeout timeout x]>
                    (free_list (conn <$> expired now l) (heap s))
      ∧ nextAddr s' = nextAddr s
      ∧ _lastUsedHosts s' = _lastUsedHosts s
      ∧ _lastCleanUpTime s' = _lastCleanUpTime s.
Proof.
  intros Hdue Hl Hk Hdel Hnot Hx Halive.
  eexists. split.
  - apply (acquire_front_alive env target now timeout s l c rest x); try done.
    by rewrite lookup_free_list, decide_False.
  - done.
Qed.

(** ** A handle that is dropped *)

(** X10.  A [ConnectionPtr] that was constructed can be destroyed without
    [done]: the destructor returns, the connection is deleted, and the
    in-use list is the one before the construction.  What the pool holds
    afterwards it held before. *)
Theorem X10_dropped_handle env target now timeout s p s1 :
  ConnectionPtr_ctor env target now timeout s = Ret p s1 →
  ∃ s', ConnectionPtr_dtor p s1 = Ret tt s'
      ∧ _inUseConnections s' = _inUseConnections s
      ∧ heap s' !! _connInfo p = None
      ∧ heap s' ⊆ heap s
      ∧ (∀ h, idle_of h s' `sublist_of` idle_of h s).
Proof.
  unfold ConnectionPtr_ctor, bind, ret.
  destruct (acquireConnection env target now timeout s) as [it s0| | |] eqn:Hr;
    try discriminate.
  intros [= <- <-].
  destruct (post_Ret _ _ _ _ _ _ (acquire_outcome env target now timeout s) Hr)
    as (info & x & H1 & H2 & H3 & H4 & H5 & H6 & _).
  unfold ConnectionPtr_dtor, destroyConnection. cbn [_pool _connInfo].
  assert (find_iter it (_inUseConnections s0) = Some info) as Hf.
  { rewrite H1. unfold find_iter. cbn. by rewrite H2, Nat.eqb_refl. }
  rewrite <- H2 in H3.
  rewrite (destroy_inUse_ok _ _ _ _ Hf H3).
  eexists. split; [reflexivity|]. cbn.
  rewrite H1. cbn. rewrite H2, Nat.eqb_refl.
  split; [done|]. split; [apply lookup_delete_eq|]. split; [done|].
  exact H5.
Qed.


(** ** The destructor *)

Lemma all_expired now l :
  (∀ r, r ∈ l → _shouldKeepConnection now r = false) →
  kept now l = [] ∧ expired now l = l.
Proof.
  intros H. induction l as [|c l IH]; [done|].
  assert (_shouldKeepConnection now c = false) as Hc by (apply H; by left).
  destruct (filter_age_drop now c l Hc) as [-> ->].
  destruct IH as [-> ->]; [|done]. intros r Hr. apply H. by right.
Qed.

Lemma post_cleanUp_inUse now s :
  post (cleanUpOlderThan now) s
       (fun _ s' => _inUseConnections s' = _inUseConnections s) (fun _ _ => False).
Proof.
  unfold cleanUpOlderThan, _cleanUpOlderThan_inlock. repeat post_step.
  apply (post_forM_ _ (fun s' => _inUseConnections s' = _inUseConnections s)); [|done].
  intros entry s0 _ Hs0. unfold cleanUpHost. post_step. apply post_cleanUp_list.
  destruct (kept now entry.2); by post_step.
Qed.

(** X5.  The destructor of a pool with a record in use does not return:
    it ends in a fault, which is the failed [invariant] when the idle
    connections can be deleted.  The destructor of a pool with no record
    in use, whose idle connections can be deleted, returns: every idle
    connection is deleted and [_connections] is empty. *)
Theorem X5_destructor s :
  (_inUseConnections s ≠ [] → ∃ f, ConnectionPool_dtor s = Crash f)
  ∧ (_inUseConnections s ≠ [] →
     deletable (conn <$> all_idle s) (heap s) →
     ConnectionPool_dtor s = Crash InvariantFailure)
  ∧ (_inUseConnections s = [] →
     deletable (conn <$> all_idle s) (heap s) →
     ∃ s', ConnectionPool_dtor s = Ret tt s'
         ∧ _connections s' = ∅
         ∧ _inUseConnections s' = []
         ∧ heap s' = free_list (conn <$> all_idle s) (heap s)).
Proof.
  split; [|split].
  - intros Hleak.
    assert (post ConnectionPool_dtor s (fun _ _ => False) (fun _ _ => False)) as Hpost.
    { unfold ConnectionPool_dtor. post_step.
      eapply post_weaken; [apply post_cleanUp_inUse | | done].
      intros ? s' Hs'. repeat post_step.
      destruct (negb (bool_decide (_connections s' = ∅))); [by post_step|].
      rewrite Hs'. destruct (_inUseConnections s); [done | by post_step]. }
    unfold post in Hpost. destruct (ConnectionPool_dtor s); try done. eauto.
  - intros Hleak Hdel.
    destruct (all_expired kNeverTooStale (all_idle s)) as [_ Hexp];
      [intros r _; apply expired_at_max|].
    unfold ConnectionPool_dtor, bind at 1.
    unfold cleanUpOlderThan, _cleanUpOlderThan_inlock, bind at 1, get.
    destruct (cleanUp_hosts_loop kNeverTooStale (map_to_list (_connections s)) s)
      as (cs & -> & _); [apply NoDup_fst_map_to_list | |].
    { fold (all_idle s). by rewrite Hexp. }
    unfold bind, get. cbn [_connections _inUseConnections set_connections set_heap].
    destruct (negb (bool_decide (cs = ∅))); [done|].
    by destruct (_inUseConnections s).
  - intros Hnone Hdel.
    destruct (all_expired kNeverTooStale (all_idle s)) as [_ Hexp];
      [intros r _; apply expired_at_max|].
    unfold ConnectionPool_dtor, bind at 1.
    unfold cleanUpOlderThan, _cleanUpOlderThan_inlock, bind at 1, get.
    destruct (cleanUp_hosts_loop kNeverTooStale (map_to_list (_connections s)) s)
      as (cs & -> & Hin & Hout); [apply NoDup_fst_map_to_list | |].
    { fold (all_idle s). by rewrite Hexp. }
    fold (all_idle s). rewrite Hexp.
    assert (cs = ∅) as ->.
    { apply map_empty. intros h. destruct (_connections s !! h) as [l|] eqn:Hl.
      - rewrite (Hin h l) by by apply elem_of_map_to_list.
        cbn. destruct (all_expired kNeverTooStale l) as [-> _]; [|done].
        intros r _. apply expired_at_max.
      - rewrite Hout, Hl; [done|]. intros Hh.
        apply list_elem_of_fmap in Hh as ([h' l] & -> & Hh).
        apply elem_of_map_to_list in Hh. cbn in Hl. congruence. }
    unfold bind, get. cbn [_connections _inUseConnections set_connections set_heap].
    rewrite bool_decide_eq_true_2 by done. cbn [negb]. rewrite Hnone.
    eexists. split; [done|]. by cbn.
Qed.


(** ** What a stale-host sweep that returns has done *)

Lemma stale_entry_Ret now h t s s1 :
  cleanUpStaleHost now (h, t) s = Ret tt s1 →
  ((_lastCleanUpTime s < t)%Z ∧ s1 = s)
  ∨ ((t <= _lastCleanUpTime s)%Z
     ∧ ∃ l, _connections s !! h = Some l ∧ kept now l = []
            ∧ s1 = set_lastUsedHosts <[h := kNeverTooStale]>
                     (set_heap (free_list (conn <$> expired now l)) s)).
Proof.
  unfold cleanUpStaleHost, bind at 1, get. cbn [fst snd].
  destruct (Z.leb_spec t (_lastCleanUpTime s)) as [Hstale|Hfresh].
  - destruct (_connections s !! h) as [l|] eqn:Hl; [|done].
    unfold bind.
    destruct (_cleanUpOlderThan_inlock_list now l s) as [l' s2| | |] eqn:Hc; try done.
    apply cleanUp_list_Ret in Hc as [-> ->].
    destruct (kept now l) eqn:Hk; [|done].
    intros [= <-]. right. split; [done|]. by exists l.
  - intros [= <-]. by left.
Qed.

Lemma swept_all_expired now l r :
  kept now l = [] → r ∈ l → r ∈ expired now l.
Proof.
  intros Hk Hr. unfold expired. apply list_elem_of_filter. split; [|done].
  intros Hkeeps. assert (r ∈ kept now l) as Hin
    by (unfold kept; by apply list_elem_of_filter).
  rewrite Hk in Hin. by apply elem_of_nil in Hin.
Qed.

Lemma stale_loop_Ret now entries s s' :
  NoDup entries.*1 →
  forM_ (cleanUpStaleHost now) entries s = Ret tt s' →
  _lastCleanUpTime s' = _lastCleanUpTime s
  ∧ _connections s' = _connections s
  ∧ heap s' ⊆ heap s
  ∧ (∀ h t, (h, t) ∈ entries → (t <= _lastCleanUpTime s)%Z →
       _lastUsedHosts s' !! h = Some kNeverTooStale
       ∧ ∃ l, _connections s !! h = Some l ∧ kept now l = []
              ∧ ∀ r, r ∈ l → heap s' !! conn r = None)
  ∧ (∀ h, (∀ t, (h, t) ∈ entries → (_lastCleanUpTime s < t)%Z) →
       _lastUsedHosts s' !! h = _lastUsedHosts s !! h).
Proof.
  revert s. induction entries as [|[h0 t0] es IH]; intros s Hnd.
  - intros [= <-]. split; [done|]. split; [done|]. split; [done|]. split; [|done].
    intros h t Hin. by apply elem_of_nil in Hin.
  - cbn in Hnd. apply NoDup_cons in Hnd as [Hh0 Hnd].
    cbn [forM_]. unfold bind at 1.
    destruct (cleanUpStaleHost now (h0, t0) s) as [[] s1| | |] eqn:Hentry; try done.
    intros Hrest. destruct (IH s1 Hnd Hrest) as (HL & Hconns & Hheap & Hstale & Hkeep).
    clear IH Hrest.
    assert (_lastUsedHosts s' !! h0 = _lastUsedHosts s1 !! h0) as Hh0'.
    { apply Hkeep. intros t Hin. exfalso. apply Hh0.
      apply list_elem_of_fmap. by exists (h0, t). }
    apply stale_entry_Ret in Hentry as [[Hfresh ->]|(Hold & l & Hl & Hk & ->)].
    + split; [done|]. split; [done|]. split; [done|]. split.
      * intros h t Hin Ht. apply elem_of_cons in Hin as [[= -> ->]|Hin]; [lia|].
        by apply (Hstale h t).
      * intros h Hh. apply Hkeep. intros t Hin. apply Hh. by right.
    + cbn in HL, Hconns, Hstale, Hkeep, Hh0'.
      split; [done|]. split; [done|]. split.
      { etrans; [exact Hheap|]. cbn. apply free_list_subseteq. }
      split.
      * intros h t Hin Ht.
        apply elem_of_cons in Hin as [[= -> ->]|Hin]; [|by apply (Hstale h t)].
        rewrite Hh0', lookup_insert_eq. split; [done|].
        exists l. split; [done|]. split; [done|]. intros r Hr.
        eapply lookup_weaken_None; [|exact Hheap]. cbn.
        rewrite lookup_free_list, decide_True; [done|].
        apply list_elem_of_fmap_2. by apply swept_all_expired.
      * intros h Hh. rewrite Hkeep.
        -- apply lookup_insert_ne. intros <-. specialize (Hh t0). 
           assert ((_lastCleanUpTime s < t0)%Z) by (apply Hh; by left). lia.
        -- intros t Hin. apply Hh. by right.
Qed.

(** X6.  A sweep of stale hosts that returns; it is due at [now] when
    [now] is after [_lastCleanUpTime + kCleanUpInterval], a sum that
    wraps around beyond [Date_t::max()].  The sweep has written no idle
    list and no in-use list, and made no connection object.  When it
    was not due, it has changed nothing.  When it was due, it has set the
    sweep time to [now] and the last-used time of the hosts last used at
    or before the previous sweep, and of no other, to [kNeverTooStale];
    the idle records of these hosts were all expired by the age test, the
    sum of which wraps around as well, their connections are deleted,
    and the records are still in [_connections].  After it the sweep is
    not due at [now], when [now + kCleanUpInterval] is a [Date_t]. *)
Theorem X6_stale_sweep now s s' :
  _cleanUpStaleHosts_inlock now s = Ret tt s' →
  _connections s' = _connections s
  ∧ _inUseConnections s' = _inUseConnections s
  ∧ nextAddr s' = nextAddr s
  ∧ heap s' ⊆ heap s
  ∧ ((now <= Date_t_plus (_lastCleanUpTime s) kCleanUpInterval)%Z → s' = s)
  ∧ ((now > Date_t_plus (_lastCleanUpTime s) kCleanUpInterval)%Z →
       _lastCleanUpTime s' = now
       ∧ _lastUsedHosts s' = restamp (_lastCleanUpTime s) <$> _lastUsedHosts s
       ∧ ∀ h t, _lastUsedHosts s !! h = Some t → (t <= _lastCleanUpTime s)%Z →
           ∃ l, _connections s !! h = Some l
                ∧ (∀ r, r ∈ l →
                     (Date_t_plus (creationDate r) kMaxConnectionAge <= now)%Z
                     ∧ heap s' !! conn r = None))
  ∧ (representable (now + kCleanUpInterval) →
     (now <= Date_t_plus (_lastCleanUpTime s') kCleanUpInterval)%Z).
Proof.
  intros Hret.
  destruct (post_Ret _ _ _ _ _ _ (post_sweep_frame now s) Hret) as (F1 & F2 & F3 & _ & F5).
  split; [done|]. split; [done|]. split; [done|]. split; [done|].
  split; [|split; [|by apply (sweep_done now s)]].
  - intros Hnot. rewrite (sweep_not_due _ _ Hnot) in Hret. by injection Hret.
  - intros Hdue. revert Hret. unfold _cleanUpStaleHosts_inlock, bind at 1, get.
    destruct (Z.gtb_spec now (Date_t_plus (_lastCleanUpTime s) kCleanUpInterval))
      as [_|?]; [|lia].
    unfold bind.
    destruct (forM_ (cleanUpStaleHost now) (map_to_list (_lastUsedHosts s)) s)
      as [[] s1| | |] eqn:Hloop; try done.
    intros [= <-]. cbn.
    destruct (stale_loop_Ret _ _ _ _ (NoDup_fst_map_to_list _) Hloop)
      as (HL & Hconns & Hheap & Hstale & Hkeep).
    split; [done|]. split.
    + apply map_eq. intros h. rewrite lookup_fmap.
      destruct (_lastUsedHosts s !! h) as [t|] eqn:Ht.
      * cbn. unfold restamp. destruct (Z.leb_spec t (_lastCleanUpTime s)) as [Hold|Hnew].
        -- apply (Hstale h t); [by apply elem_of_map_to_list | done].
        -- rewrite Hkeep; [done|]. intros t' Hin. apply elem_of_map_to_list in Hin.
           assert (t' = t) as -> by congruence. done.
      * rewrite Hkeep; [done|]. intros t' Hin. apply elem_of_map_to_list in Hin.
        congruence.
    + intros h t Ht Hold.
      destruct (Hstale h t) as (_ & l & Hl & Hk & Hgone);
        [by apply elem_of_map_to_list | done |].
      exists l. split; [done|]. intros r Hr. split; [|by apply Hgone].
      apply not_keeps. pose proof (swept_all_expired _ _ _ Hk Hr) as Hexp.
      unfold expired in Hexp. by apply list_elem_of_filter in Hexp as [? _].
Qed.


(** ** cleanUpOlderThan, twice *)

Lemma all_young now l :
  (∀ r, r ∈ l → keeps now r) → kept now l = l ∧ expired now l = [].
Proof.
  intros H. induction l as [|c l IH]; [done|].
  assert (_shouldKeepConnection now c = true) as Hc by (apply H; by left).
  destruct (filter_age_keep now c l Hc) as [-> ->].
  destruct IH as [-> ->]; [|done]. intros r Hr. apply H. by right.
Qed.

Lemma elem_of_all_idle_inv s r :
  r ∈ all_idle s → ∃ h l, _connections s !! h = Some l ∧ r ∈ l.
Proof.
  unfold all_idle. intros Hr. apply list_elem_of_join in Hr as (l & Hr & Hl).
  apply list_elem_of_fmap in Hl as ([h l'] & -> & Hin).
  apply elem_of_map_to_list in Hin. by exists h, l'.
Qed.

Lemma elem_of_kept_iff now l r : r ∈ kept now l ↔ keeps now r ∧ r ∈ l.
Proof. unfold kept. apply list_elem_of_filter. Qed.

(** X7.  When the expired idle records can be deleted,
    [cleanUpOlderThan(now)] returns a pool in which no idle list is empty
    and no idle record is expired at [now], and on which a second
    [cleanUpOlderThan(now)] changes nothing.  A record that is not
    expired passes the age test of the code, and, its creation date
    being a [Date_t], has [now < creationDate + kMaxConnectionAge]. *)
Theorem X7_cleanUpOlderThan_twice now s :
  deletable (conn <$> expired now (all_idle s)) (heap s) →
  ∃ s', cleanUpOlderThan now s = Ret tt s'
      ∧ (∀ h l, _connections s' !! h = Some l →
           l ≠ [] ∧ ∀ r, r ∈ l →
             (now < Date_t_plus (creationDate r) kMaxConnectionAge)%Z
             ∧ ((- 2 ^ 63 <= creationDate r)%Z →
                (now < creationDate r + kMaxConnectionAge)%Z))
      ∧ cleanUpOlderThan now s' = Ret tt s'.
Proof.
  intros Hdel. unfold cleanUpOlderThan, _cleanUpOlderThan_inlock, bind, get.
  destruct (cleanUp_hosts_loop now (map_to_list (_connections s)) s)
    as (cs & -> & Hin & Hout); [apply NoDup_fst_map_to_list | done |].
  fold (all_idle s).
  set (s' := set_connections _ _).
  assert (∀ h l, _connections s' !! h = Some l →
            l ≠ [] ∧ ∀ r, r ∈ l → keeps now r) as Hpost.
  { intros h l Hl. cbn in Hl.
    destruct (_connections s !! h) as [l0|] eqn:Hl0.
    - rewrite (Hin h l0) in Hl by by apply elem_of_map_to_list. cbn in Hl.
      destruct (kept now l0) as [|c k] eqn:Hk; [done|]. injection Hl as <-.
      split; [done|]. intros r Hr. rewrite <- Hk in Hr.
      by apply elem_of_kept_iff in Hr as [? _].
    - rewrite Hout, Hl0 in Hl; [done|]. intros Hh.
      apply list_elem_of_fmap in Hh as ([h' l'] & -> & Hh).
      apply elem_of_map_to_list in Hh. cbn in Hl0. congruence. }
  eexists. split; [done|]. split.
  { intros h l Hl. destruct (Hpost h l Hl) as [? Hy]. split; [done|].
    intros r Hr. pose proof (proj1 (keeps_iff now r) (Hy r Hr)) as Hk.
    split; [done|]. intros Hmin.
    pose proof (wrap64_le (creationDate r + kMaxConnectionAge)) as Hle.
    pose proof age_not_negative. unfold Date_t_plus in Hk. lia. }
  assert (expired now (all_idle s') = []) as Hnone.
  { apply all_young. intros r Hr. apply elem_of_all_idle_inv in Hr as (h & l & Hl & Hr).
    by apply (Hpost h l Hl). }
  destruct (cleanUp_hosts_loop now (map_to_list (_connections s')) s')
    as (cs' & -> & Hin' & Hout'); [apply NoDup_fst_map_to_list | |].
  { fold (all_idle s'). rewrite Hnone. split; [constructor|].
    intros p Hp. by apply elem_of_nil in Hp. }
  fold (all_idle s'). rewrite Hnone.
  assert (cs' = cs) as ->; [|done].
  apply map_eq. intros h. destruct (cs !! h) as [l|] eqn:Hl.
  - rewrite (Hin' h l) by by apply elem_of_map_to_list.
    destruct (Hpost h l Hl) as [Hne Hy]. cbn.
    destruct (all_young now l Hy) as [-> _]. by destruct l.
  - rewrite Hout'; [done|]. intros Hh.
    apply list_elem_of_fmap in Hh as ([h' l'] & -> & Hh).
    apply elem_of_map_to_list in Hh. cbn in Hh, Hl. congruence.
Qed.


(** ** No connection object is lost *)

Lemma idle_of_delete target h s :
  idle_of h (set_connections (delete target) s)
  = if decide (target = h) then [] else idle_of h s.
Proof.
  unfold idle_of. cbn. case_decide as Hh.
  - subst. by rewrite lookup_delete_eq.
  - by rewrite lookup_delete_ne.
Qed.

Lemma is_Some_free_list ps (hp : gmap nat DBClientConnection) p :
  is_Some (free_list ps hp !! p) → is_Some (hp !! p) ∧ p ∉ ps.
Proof.
  rewrite lookup_free_list. case_decide; [intros [? ?]; done | done].
Qed.

Lemma elem_of_conn_kept now l p :
  p ∈ conn <$> l → p ∉ conn <$> expired now l → p ∈ conn <$> kept now l.
Proof.
  intros Hin Hnot. apply list_elem_of_fmap in Hin as (r & -> & Hr).
  apply list_elem_of_fmap_2. apply elem_of_kept_iff. split; [|done].
  destruct (decide (keeps now r)) as [|Hexp]; [done|]. exfalso. apply Hnot.
  apply list_elem_of_fmap_2. unfold expired. by apply list_elem_of_filter.
Qed.

(** What holds [p] after the idle list of [target] was swept. *)
Lemma held_swept now target l p s :
  held p s → _connections s !! target = Some l → p ∉ conn <$> expired now l →
  p ∈ conn <$> _inUseConnections s
  ∨ (∃ h, h ≠ target ∧ p ∈ conn <$> idle_of h s)
  ∨ p ∈ conn <$> kept now l.
Proof.
  intros [Huse|[h Hidle]] Hl Hnot; [by left|]. right.
  destruct (decide (h = target)) as [->|Hne]; [|left; by exists h].
  right. rewrite (idle_of_lookup _ _ _ Hl) in Hidle. by apply elem_of_conn_kept.
Qed.

Lemma held_lists p s s' :
  _connections s' = _connections s → _inUseConnections s' = _inUseConnections s →
  held p s → held p s'.
Proof. intros H1 H2. unfold held, idle_of. by rewrite H1, H2. Qed.

Lemma erase_other iter l p : p ≠ iter → p ∈ conn <$> l → p ∈ conn <$> erase iter l.
Proof.
  intros Hne. induction l as [|c l IH]; [done|]. cbn.
  destruct (Nat.eqb_spec (conn c) iter) as [Heq|Hc].
  - rewrite elem_of_cons. intros [->|?]; [congruence | done].
  - rewrite fmap_cons, !elem_of_cons. intros [->|?]; [by left | right; auto].
Qed.

Lemma acquire_no_leak env target now timeout s :
  no_leak s →
  post (acquireConnection env target now timeout) s
       (fun _ => no_leak) (fun _ => no_leak).
Proof.
  intros Hs. unfold acquireConnection. post_step.
  eapply post_weaken; [apply post_sweep_frame | | done].
  intros ? s1 (F1 & F2 & _ & _ & F5).
  assert (no_leak s1) as Hs1.
  { intros p [x Hp]. apply (held_lists p s); [done|done|].
    apply Hs. exists x. by eapply lookup_weaken. }
  repeat post_step.
  eapply post_weaken;
    [apply (loop_rule now env target timeout no_leak
              (fun _ => no_leak) (fun _ => no_leak)); [| | | exact Hs1 | lia] | |done].
  - by intros.
  - intros s2 l Hs2 Hl Hk p Hp. cbn in Hp.
    apply is_Some_free_list in Hp as [Hp Hnot].
    destruct (held_swept now target l p s2 (Hs2 p Hp) Hl Hnot) as [Huse|[(h & Hne & Hh)|Hkept]].
    + by left.
    + right. exists h. unfold marked_never_stale.
      change (idle_of h (set_lastUsedHosts ?f (set_connections ?g (set_heap ?k ?s))))
        with (idle_of h (set_connections g s)).
      by rewrite idle_of_insert, decide_False.
    + rewrite Hk in Hkept. by apply elem_of_nil in Hkept.
  - intros s2 l c rest x Hs2 Hl Hk Hx.
    assert (∀ p, is_Some (heap s2 !! p) → p ∉ conn <$> expired now l → p ≠ conn c →
                 p ∈ conn <$> _inUseConnections s2
                 ∨ ∃ h, p ∈ conn <$> idle_of h (set_connections <[target := rest]> s2))
      as Hrest.
    { intros p Hp Hnot Hne.
      destruct (held_swept now target l p s2 (Hs2 p Hp) Hl Hnot)
        as [Huse|[(h & Hh & Hin)|Hkept]].
      - by left.
      - right. exists h. by rewrite idle_of_insert, decide_False.
      - right. exists target. rewrite idle_of_insert, decide_True by done.
        rewrite Hk, fmap_cons in Hkept. by apply elem_of_cons in Hkept as [?|?]. }
    assert (no_leak (candidate_destroyed target c rest
                       (set_heap (free_list (conn <$> expired now l)) s2))) as Hd.
    { intros p Hp. cbn in Hp.
      destruct (decide (p = conn c)) as [->|Hne];
        [rewrite lookup_delete_eq in Hp; by destruct Hp|].
      rewrite lookup_delete_ne in Hp by done.
      apply is_Some_free_list in Hp as [Hp Hnot].
      destruct (Hrest p Hp Hnot Hne) as [?|[h ?]]; [by left | right; by exists h]. }
    destruct (isStillConnected env (conn c)); [|done|done].
    intros p Hp. cbn in Hp.
    destruct (decide (p = conn c)) as [->|Hne]; [left; cbn; by left|].
    rewrite lookup_insert_ne in Hp by done.
    apply is_Some_free_list in Hp as [Hp Hnot].
    destruct (Hrest p Hp Hnot Hne) as [?|[h ?]]; [left; cbn; by right | right; by exists h].
  - intros [it|] s2 Hs2; [by post_step|].
    unfold post. rewrite dial_cases.
    assert (no_leak (dial_failed env s2)) as Hfail.
    { intros p Hp. cbn in Hp.
      destruct (decide (p = operator_new env s2)) as [->|Hne];
        [rewrite lookup_delete_eq in Hp; by destruct Hp|].
      rewrite lookup_delete_ne in Hp by done. by apply Hs2. }
    assert (no_leak (dial_succeeded env target now timeout s2)) as Hok.
    { intros p Hp. cbn in Hp.
      destruct (decide (p = operator_new env s2)) as [->|Hne]; [left; cbn; by left|].
      rewrite lookup_insert_ne in Hp by done.
      destruct (Hs2 p Hp) as [?|[h ?]]; [left; cbn; by right | right; by exists h]. }
    destruct (negb (connect env target).1); [done|].
    destruct (isAuthEnabled env && negb (isInternalAuthSet env)); [done|].
    by destruct (isAuthEnabled env && negb (authSucceeds env)).
Qed.


Lemma destroyed_no_leak iter info s :
  no_leak s → find_iter iter (_inUseConnections s) = Some info →
  no_leak (set_inUseConnections (fun _ => erase iter (_inUseConnections s))
             (set_heap (delete (conn info)) s)).
Proof.
  intros Hs Hf p Hp. apply find_iter_Some in Hf as [Hconn _]. cbn in Hp.
  destruct (decide (p = conn info)) as [->|Hne];
    [rewrite lookup_delete_eq in Hp; by destruct Hp|].
  rewrite lookup_delete_ne in Hp by done.
  destruct (Hs p Hp) as [Huse|[h Hh]]; [|right; by exists h].
  left. cbn. apply erase_other; [congruence | done].
Qed.

Lemma release_no_leak iter now s :
  no_leak s →
  post (releaseConnection iter now) s (fun _ => no_leak) (fun _ => no_leak).
Proof.
  intros Hs. unfold releaseConnection. repeat post_step.
  destruct (find_iter iter (_inUseConnections s)) as [info|] eqn:Hf; [|by post_step].
  destruct (negb (_shouldKeepConnection now info)).
  { apply post_destroy_inUse. intros info' Hf'. by apply destroyed_no_leak. }
  destruct (heap s !! conn info) as [c|] eqn:Hc; [|by post_step].
  post_step. apply post_cleanUp_list. repeat post_step.
  cbn [heap set_inUseConnections set_connections set_heap].
  destruct (free_list _ _ !! conn info); [|by post_step].
  post_step. apply find_iter_Some in Hf as [Hconn Hinfo].
  set (host := getServerHostAndPort c). intros p Hp. cbn in Hp.
  apply is_Some_free_list in Hp as [Hp Hnot].
  destruct (Hs p Hp) as [Huse|[h Hh]].
  - destruct (decide (p = iter)) as [->|Hne].
    + right. exists host. unfold idle_of. cbn. rewrite lookup_insert_eq. cbn.
      rewrite Hconn. by left.
    + left. cbn. by apply erase_other.
  - right. exists h. unfold idle_of. cbn -[kept].
    destruct (decide (host = h)) as [<-|Hhost].
    + rewrite lookup_insert_eq. cbn -[kept]. right. by apply elem_of_conn_kept.
    + by rewrite lookup_insert_ne.
Qed.

Lemma destroy_no_leak iter s :
  no_leak s → post (destroyConnection iter) s (fun _ => no_leak) (fun _ => no_leak).
Proof.
  intros Hs. unfold destroyConnection. apply post_destroy_inUse.
  intros info Hf. by apply destroyed_no_leak.
Qed.

Lemma closeAll_no_leak s :
  no_leak s → post closeAllInUseConnections s (fun _ => no_leak) (fun _ => no_leak).
Proof.
  intros Hs. unfold closeAllInUseConnections. repeat post_step.
  apply post_forM_; [|done]. intros info s' _ Hs'.
  unfold post, shutdown_port. destruct (heap s' !! conn info) as [x|] eqn:Hx; [|done].
  intros p Hp. cbn in Hp. apply (held_lists p s'); [done|done|]. apply Hs'.
  destruct (decide (p = conn info)) as [->|Hne]; [by exists x|].
  by rewrite lookup_insert_ne in Hp.
Qed.

Lemma cleanUp_hosts_no_leak now entries s s' :
  NoDup entries.*1 →
  (∀ h l, (h, l) ∈ entries → _connections s !! h = Some l) →
  no_leak s →
  forM_ (cleanUpHost now) entries s = Ret tt s' → no_leak s'.
Proof.
  revert s. induction entries as [|[h0 l0] es IH]; intros s Hnd Hentries Hs.
  - by intros [= <-].
  - cbn in Hnd. apply NoDup_cons in Hnd as [Hh0 Hnd].
    cbn [forM_]. unfold bind at 1.
    destruct (cleanUpHost now (h0, l0) s) as [[] s1| | |] eqn:Hhost; try done.
    apply (IH s1 Hnd); clear IH.
    + intros h l Hin. assert (h ≠ h0) as Hne.
      { intros ->. apply Hh0. apply list_elem_of_fmap. by exists (h0, l). }
      assert (_connections s !! h = Some l) as Hl by (apply Hentries; by right).
      revert Hhost. unfold cleanUpHost, bind. cbn [fst snd].
      destruct (_cleanUpOlderThan_inlock_list now l0 s) as [l' s2| | |] eqn:Hc; try done.
      apply cleanUp_list_Ret in Hc as [-> ->].
      destruct (kept now l0); intros [= <-]; cbn.
      * by rewrite lookup_delete_ne.
      * by rewrite lookup_insert_ne.
    + assert (_connections s !! h0 = Some l0) as Hl0 by (apply Hentries; by left).
      revert Hhost. unfold cleanUpHost, bind. cbn [fst snd].
      destruct (_cleanUpOlderThan_inlock_list now l0 s) as [l' s2| | |] eqn:Hc; try done.
      apply cleanUp_list_Ret in Hc as [-> ->].
      destruct (kept now l0) as [|c k] eqn:Hk; intros [= <-]; intros p Hp; cbn in Hp;
        apply is_Some_free_list in Hp as [Hp Hnot];
        destruct (held_swept now h0 l0 p s (Hs p Hp) Hl0 Hnot)
          as [Huse|[(h & Hne & Hh)|Hkept]].
      * by left.
      * right. exists h.
        change (idle_of h (set_connections ?f (set_heap ?g ?s)))
          with (idle_of h (set_connections f s)).
        by rewrite idle_of_delete, decide_False.
      * rewrite Hk in Hkept. by apply elem_of_nil in Hkept.
      * by left.
      * right. exists h.
        change (idle_of h (set_connections ?f (set_heap ?g ?s)))
          with (idle_of h (set_connections f s)).
        by rewrite idle_of_insert, decide_False.
      * right. exists h0.
        change (idle_of h0 (set_connections ?f (set_heap ?g ?s)))
          with (idle_of h0 (set_connections f s)).
        rewrite idle_of_insert, decide_True by done. by rewrite <- Hk.
Qed.

Lemma cleanUp_no_leak now s :
  no_leak s → post (cleanUpOlderThan now) s (fun _ => no_leak) (fun _ => no_leak).
Proof.
  intros Hs.
  pose proof (post_cleanUp_inUse now s) as Hpost. unfold post in *.
  destruct (cleanUpOlderThan now s) as [[] s'| | |] eqn:Hrun; try done.
  revert Hrun. unfold cleanUpOlderThan, _cleanUpOlderThan_inlock, bind, get.
  apply cleanUp_hosts_no_leak; [apply NoDup_fst_map_to_list | | done].
  intros h l Hin. by apply elem_of_map_to_list.
Qed.

Lemma call_no_leak c s :
  no_leak s → post (call c) s (fun _ => no_leak) (fun _ => no_leak).
Proof.
  intros Hs. destruct c as [env target now timeout|iter now|iter|now|]; cbn.
  - post_step. eapply post_weaken; [by apply acquire_no_leak | | done].
    intros it s' Hs'. by post_step.
  - by apply release_no_leak.
  - by apply destroy_no_leak.
  - by apply cleanUp_no_leak.
  - by apply closeAll_no_leak.
Qed.

Lemma new_pool_no_leak tags : no_leak (ConnectionPool tags).
Proof. intros p [x Hp]. cbn in Hp. by rewrite lookup_empty in Hp. Qed.

Lemma calls_no_leak cs s :
  no_leak s → post (calls cs) s (fun _ => no_leak) (fun _ _ => False).
Proof.
  revert s. induction cs as [|c cs IH]; intros s Hs; [done|].
  unfold calls. cbn [forM_]. post_step.
  eapply post_weaken; [apply post_caught, (call_no_leak c s Hs) | | done].
  intros ? s' Hs'. by apply IH.
Qed.

Lemma nodes_of_elem p l : p ∈ conn <$> l → 0 < nodes_of p l.
Proof.
  unfold nodes_of. induction l as [|c l IH]; [intros H; by apply elem_of_nil in H|].
  rewrite fmap_cons, elem_of_cons, filter_cons. intros [->|Hin].
  - rewrite decide_True by done. cbn. lia.
  - case_decide; [cbn; lia | by apply IH].
Qed.

Lemma sum_nodes_elem p (es : list ((string * N) * list ConnectionInfo)) h l :
  (h, l) ∈ es → nodes_of p l ≤ sum_list ((fun e => nodes_of p e.2) <$> es).
Proof.
  induction es as [|[h' l'] es IH]; [intros H; by apply elem_of_nil in H|].
  rewrite fmap_cons. cbn -[nodes_of]. intros Hin.
  apply elem_of_cons in Hin as [[= <- <-]|Hin]; [lia|].
  specialize (IH Hin). lia.
Qed.

Lemma held_holders p s : held p s → 0 < holders p s.
Proof.
  unfold holders. intros [Huse|[h Hh]].
  - apply nodes_of_elem in Huse. lia.
  - unfold idle_of in Hh. destruct (_connections s !! h) as [l|] eqn:Hl;
      [|by apply elem_of_nil in Hh].
    change (p ∈ conn <$> l) in Hh. apply nodes_of_elem in Hh.
    pose proof (sum_nodes_elem p (map_to_list (_connections s)) h l) as Hsum.
    assert ((h, l) ∈ map_to_list (_connections s)) as Hin by by apply elem_of_map_to_list.
    specialize (Hsum Hin). lia.
Qed.

(** X9.  In a pool reached from a new pool by calls of the public
    member functions, whichever blocks the allocator handed out, every
    connection object that has not been deleted is held by a list node,
    idle or in use: the pool loses no connection. *)
Theorem X9_live_connection_is_held tags cs s p x :
  calls cs (ConnectionPool tags) = Ret tt s →
  heap s !! p = Some x →
  1 ≤ holders p s
  ∧ ((∃ r, r ∈ _inUseConnections s ∧ conn r = p)
     ∨ (∃ h l r, _connections s !! h = Some l ∧ r ∈ l ∧ conn r = p)).
Proof.
  intros Hcalls Hp.
  pose proof (post_Ret _ _ _ _ _ _ (calls_no_leak cs _ (new_pool_no_leak tags)) Hcalls)
    as Hleak.
  assert (held p s) as Hheld by (apply Hleak; by exists x).
  split; [by apply held_holders|].
  destruct Hheld as [Huse|[h Hh]].
  - left. apply list_elem_of_fmap in Huse as (r & -> & Hr). by exists r.
  - right. unfold idle_of in Hh.
    destruct (_connections s !! h) as [l|] eqn:Hl; [|by apply elem_of_nil in Hh].
    apply list_elem_of_fmap in Hh as (r & -> & Hr). by exists h, l, r.
Qed.


(** ** The further theorems at the concrete pools *)

(** X1 at [one_idle]: the idle connection is handed out at time 10 with
    the timeout 2000. *)
Lemma X1_witness :
  ∃ s' info x,
    acquireConnection network_up hostA 10 2000 one_idle = Ret 0 s'
    ∧ _inUseConnections s' = info :: _inUseConnections one_idle
    ∧ heap s' !! 0 = Some x
    ∧ soTimeoutMillis x = 2000%Z.
Proof.
  assert (∃ s', acquireConnection network_up hostA 10 2000 one_idle = Ret 0 s')
    as [s' Hrun] by (eexists; vm_compute; reflexivity).
  destruct (X1_acquire_returns network_up hostA 10 2000 one_idle 0 s' Hrun)
    as (info & x & Huse & _ & Hx & Ht & _).
  exists s', info, x. split; [exact Hrun|]. split; [exact Huse|].
  split; [exact Hx | exact Ht].
Defined.

(** X2 at [one_idle]: the probe of the idle connection throws. *)
Lemma X2_witness :
  ∃ s', acquireConnection probe_throws hostA 0 1000 one_idle = Throw ProbeThrew s'
      ∧ _inUseConnections s' = _inUseConnections one_idle
      ∧ heap s' ⊆ heap one_idle.
Proof.
  assert (∃ s', acquireConnection probe_throws hostA 0 1000 one_idle
                = Throw ProbeThrew s')
    as [s' Hrun] by (eexists; vm_compute; reflexivity).
  destruct (X2_acquire_throws probe_throws hostA 0 1000 one_idle ProbeThrew s' Hrun)
    as (Huse & Hheap & _).
  exists s'. split; [exact Hrun|]. split; [exact Huse | exact Hheap].
Defined.

(** X3 at [one_idle] and time 10. *)
Lemma X3_witness :
  ∃ s', acquireConnection network_up hostA 10 2000 one_idle = Ret 0 s'
      ∧ _inUseConnections s' = [mkInfo 0 0%Z]
      ∧ nextAddr s' = 1.
Proof.
  assert (_connections one_idle !! hostA = Some [mkInfo 0 0%Z]) as Hl
    by (vm_compute; reflexivity).
  assert (kept 10 [mkInfo 0 0%Z] = [mkInfo 0 0%Z]) as Hk by (vm_compute; reflexivity).
  assert (expired 10 [mkInfo 0 0%Z] = []) as He by (vm_compute; reflexivity).
  assert (heap one_idle !! 0 = Some (connA 1000)) as Hx by (vm_compute; reflexivity).
  assert (Date_t_plus (_lastCleanUpTime one_idle) kCleanUpInterval = 300000%Z) as Hdue
    by (vm_compute; reflexivity).
  destruct (X3_acquire_reuses_newest_idle network_up hostA 10 2000 one_idle
              [mkInfo 0 0%Z] (mkInfo 0 0%Z) [] (connA 1000))
    as (s' & Hrun & Huse & _ & _ & Hnext & _).
  - rewrite Hdue. lia.
  - exact Hl.
  - exact Hk.
  - rewrite He. split; [constructor|].
    intros p Hp. exfalso. exact (proj1 (elem_of_nil p) Hp).
  - rewrite He. intros Hp. exact (proj1 (elem_of_nil _) Hp).
  - exact Hx.
  - reflexivity.
  - exists s'. split; [exact Hrun|]. split; [exact Huse | exact Hnext].
Defined.

(** X4 at [one_in_use]: the connection is released at time 10 and
    acquired at time 20. *)
Lemma X4_witness :
  ∃ s', (let! _ := releaseConnection 0 10 in
         acquireConnection network_up hostA 20 2000) one_in_use = Ret 0 s'
      ∧ _inUseConnections s' = [mkInfo 0 0%Z]
      ∧ nextAddr s' = 1.
Proof.
  assert (heap one_in_use !! 0 = Some (connA 1000)) as Hx by (vm_compute; reflexivity).
  assert ([] = default [] (_connections one_in_use !! hostA)) as Hl
    by (vm_compute; reflexivity).
  assert (conn <$> (expired 10 [] ++ expired 20 (kept 10 [])) = []) as Hgone
    by (vm_compute; reflexivity).
  assert (Date_t_plus (_lastCleanUpTime one_in_use) kCleanUpInterval = 300000%Z) as Hdue
    by (vm_compute; reflexivity).
  destruct (X4_release_then_acquire network_up 10 20 2000 (mkInfo 0 0%Z)
              (connA 1000) [] [] [] one_in_use)
    as (s' & Hrun & Huse & _ & _ & _ & Hnext).
  - reflexivity.
  - intros r Hr. exfalso. exact (proj1 (elem_of_nil r) Hr).
  - exact Hx.
  - exact Hl.
  - vm_compute. reflexivity.
  - vm_compute. reflexivity.
  - rewrite Hgone. split; [constructor|].
    intros p Hp. exfalso. exact (proj1 (elem_of_nil p) Hp).
  - rewrite Hgone. intros Hp. exact (proj1 (elem_of_nil _) Hp).
  - rewrite Hdue. lia.
  - reflexivity.
  - exists s'. split; [exact Hrun|]. split; [exact Huse | exact Hnext].
Defined.

(** X5 at [one_in_use], where the destructor fails, and at [one_idle],
    where it returns. *)
Lemma X5_witness :
  ConnectionPool_dtor one_in_use = Crash InvariantFailure
  ∧ ∃ s', ConnectionPool_dtor one_idle = Ret tt s'
        ∧ _connections s' = ∅
        ∧ heap s' !! 0 = None.
Proof.
  assert (all_idle one_in_use = []) as Hnone by (vm_compute; reflexivity).
  assert (all_idle one_idle = [mkInfo 0 0%Z]) as Hidle by (vm_compute; reflexivity).
  assert (free_list [0] (heap one_idle) !! 0 = None) as Hfreed
    by (vm_compute; reflexivity).
  split.
  - destruct (X5_destructor one_in_use) as (_ & Hfail & _). apply Hfail.
    + discriminate.
    + rewrite Hnone. split; [constructor|].
      intros p Hp. exfalso. exact (proj1 (elem_of_nil p) Hp).
  - destruct (X5_destructor one_idle) as (_ & _ & Hok).
    destruct Hok as (s' & Hrun & Hconns & _ & Hheap).
    + reflexivity.
    + rewrite Hidle. split; [apply NoDup_singleton|]. intros p Hp.
      apply list_elem_of_singleton in Hp as ->. eexists. vm_compute. reflexivity.
    + exists s'. split; [exact Hrun|]. split; [exact Hconns|].
      rewrite Hheap, Hidle. exact Hfreed.
Defined.

(** X6 at [one_idle], with the sweep due at time 300001. *)
Lemma X6_witness :
  ∃ s', _cleanUpStaleHosts_inlock 300001 one_idle = Ret tt s'
      ∧ _connections s' = _connections one_idle
      ∧ _lastCleanUpTime s' = 300001%Z
      ∧ heap s' !! 0 = None.
Proof.
  assert (∃ s', _cleanUpStaleHosts_inlock 300001 one_idle = Ret tt s')
    as [s' Hrun] by (eexists; vm_compute; reflexivity).
  assert (_lastUsedHosts one_idle !! hostA = Some 0%Z) as Hused
    by (vm_compute; reflexivity).
  assert (_connections one_idle !! hostA = Some [mkInfo 0 0%Z]) as Hl
    by (vm_compute; reflexivity).
  assert (Date_t_plus (_lastCleanUpTime one_idle) kCleanUpInterval = 300000%Z) as Hsum
    by (vm_compute; reflexivity).
  destruct (X6_stale_sweep 300001 one_idle s' Hrun) as (Hconns & _ & _ & _ & _ & Hdue & _).
  destruct Hdue as (Htime & _ & Hstale); [rewrite Hsum; lia|].
  destruct (Hstale hostA 0%Z Hused) as (l & Hl' & Hgone); [cbn; lia|].
  rewrite Hl in Hl'. injection Hl' as <-.
  destruct (Hgone (mkInfo 0 0%Z)) as [_ Hfreed]; [by left|].
  exists s'. split; [exact Hrun|]. split; [exact Hconns|].
  split; [exact Htime | exact Hfreed].
Defined.

(** X7 at [one_idle] and time 30000, when the idle record has expired. *)
Lemma X7_witness :
  ∃ s', cleanUpOlderThan 30000 one_idle = Ret tt s'
      ∧ cleanUpOlderThan 30000 s' = Ret tt s'.
Proof.
  assert (conn <$> expired 30000 (all_idle one_idle) = [0]) as Hexp
    by (vm_compute; reflexivity).
  destruct (X7_cleanUpOlderThan_twice 30000 one_idle) as (s' & Hrun & _ & Hagain).
  - rewrite Hexp. split; [apply NoDup_singleton|]. intros p Hp.
    apply list_elem_of_singleton in Hp as ->. eexists. vm_compute. reflexivity.
  - exists s'. split; [exact Hrun | exact Hagain].
Defined.

(** X9 at [one_idle], reached by an acquire and a release at time 0. *)
Lemma X9_witness :
  calls [acquire network_up hostA 0 1000; release 0 0] (ConnectionPool 0)
  = Ret tt one_idle
  ∧ 1 ≤ holders 0 one_idle.
Proof.
  assert (calls [acquire network_up hostA 0 1000; release 0 0] (ConnectionPool 0)
          = Ret tt one_idle) as Hrun by (vm_compute; reflexivity).
  assert (heap one_idle !! 0 = Some (connA 1000)) as Hx by (vm_compute; reflexivity).
  split; [exact Hrun|].
  exact (proj1 (X9_live_connection_is_held 0 _ one_idle 0 (connA 1000) Hrun Hx)).
Defined.

(** X10 at a new pool: a handle is constructed and dropped. *)
Lemma X10_witness :
  ∃ s', ConnectionPtr_ctor network_up hostA 0 1000 (ConnectionPool 0)
        = Ret (mkPtr this_pool 0) one_in_use
      ∧ ConnectionPtr_dtor (mkPtr this_pool 0) one_in_use = Ret tt s'
      ∧ _inUseConnections s' = []
      ∧ heap s' !! 0 = None.
Proof.
  assert (ConnectionPtr_ctor network_up hostA 0 1000 (ConnectionPool 0)
          = Ret (mkPtr this_pool 0) one_in_use) as Hctor by (vm_compute; reflexivity).
  destruct (X10_dropped_handle network_up hostA 0 1000 (ConnectionPool 0) _ _ Hctor)
    as (s' & Hrun & Huse & Hfreed & _).
  exists s'. split; [exact Hctor|]. split; [exact Hrun|].
  split; [exact Huse | exact Hfreed].
Defined.

(** X11 at [one_in_use]: the record is released at time 30000, when it
    has expired, and at time 10, when it has not. *)
Lemma X11_witness :
  (∃ s', releaseConnection 0 30000 one_in_use = Ret tt s'
       ∧ heap s' = delete 0 (heap one_in_use)
       ∧ _inUseConnections s' = []
       ∧ _connections s' = _connections one_in_use)
  ∧ (∃ s', releaseConnection 0 10 one_in_use = Ret tt s'
         ∧ _inUseConnections s' = []
         ∧ _connections s' = <[hostA := [mkInfo 0 0%Z]]> (_connections one_in_use)
         ∧ _lastUsedHosts s' = <[hostA := 10%Z]> (_lastUsedHosts one_in_use)).
Proof.
  assert (heap one_in_use !! 0 = Some (connA 1000)) as Hx by (vm_compute; reflexivity).
  assert ([] = default [] (_connections one_in_use !! hostA)) as Hl
    by (vm_compute; reflexivity).
  assert (representable (0 + kMaxConnectionAge)) as Hrep
    by (unfold representable, kMaxConnectionAge, kNeverTooStale; lia).
  assert (∀ r : ConnectionInfo, r ∈ [] → conn r ≠ 0) as Hfront
    by (intros r Hr; exfalso; exact (proj1 (elem_of_nil r) Hr)).
  split.
  - destruct (X11_releaseConnection 30000 (mkInfo 0 0%Z) (connA 1000) [] [] []
                one_in_use eq_refl Hfront Hx Hrep Hl) as [Hold _].
    destruct Hold as (s' & Hrun & Hheap & Huse & Hconns & _);
      [unfold kMaxConnectionAge; cbn; lia|].
    exists s'. split; [exact Hrun|]. split; [exact Hheap|].
    split; [exact Huse | exact Hconns].
  - destruct (X11_releaseConnection 10 (mkInfo 0 0%Z) (connA 1000) [] [] []
                one_in_use eq_refl Hfront Hx Hrep Hl) as [_ Hyoung].
    destruct Hyoung as (s' & Hrun & _ & Huse & Hconns & Hlast & _).
    + unfold kMaxConnectionAge. cbn. lia.
    + intros r Hr. exfalso. exact (proj1 (elem_of_nil r) Hr).
    + split; [constructor|]. intros p Hp. exfalso. exact (proj1 (elem_of_nil p) Hp).
    + intros Hp. exact (proj1 (elem_of_nil _) Hp).
    + exists s'. split; [exact Hrun|]. split; [exact Huse|].
      split; [exact Hconns | exact Hlast].
Defined.

(** X12 at [one_idle], reached by an acquire and a release at time 0,
    with the sweep due at time 300001. *)
Lemma X12_witness :
  (∀ r, r ∈ [mkInfo 0 0%Z] → (creationDate r + kMaxConnectionAge <= 300001)%Z)
  ∧ _cleanUpStaleHosts_inlock 300001 one_idle ≠ Crash InvariantFailure.
Proof.
  destruct (X12_sweep_invariant_holds 0 0
              [acquire network_up hostA 0 1000; release 0 0] one_idle 300001)
    as [Hstale Hassert].
  - lia.
  - cbn. unfold kNeverTooStale, kCleanUpInterval. lia.
  - vm_compute. reflexivity.
  - cbn. unfold kCleanUpInterval. lia.
  - split; [|exact Hassert].
    apply (Hstale hostA 0%Z [mkInfo 0 0%Z]);
      [vm_compute; reflexivity | cbn; lia | vm_compute; reflexivity].
Defined.
